(** * translate_repo.py: the translation pipeline, embedded and verified

    A shallow embedding of [.github/translation/translate_repo.py]:
    the glossary loader, the Markdown segmenter, the rule-based (pattern)
    translator, the dispatcher with its network backends, the Markdown
    reassembler and the JSON description walker.

    Python [str] values are sequences of Unicode code points; regular
    expressions and [str] methods work on code points, so a [str] is a
    [list N] here.  String literals of the source are written as UTF-8
    literals and decoded by [u]. *)

From Stdlib Require Import String Ascii.
From Stdlib Require Import List NArith ZArith Bool Arith Lia.
Import ListNotations.

Set Warnings "-register-all".

(* ================================================================== *)
(** * Part I: the program *)
(* ================================================================== *)

(** ** Python strings *)

Definition codepoint := N.
Definition str := list codepoint.

Module Utf8.

(** Decoder for the literals of this file (well-formed UTF-8 only). *)
Fixpoint decode (bs : list N) : str :=
  match bs with
  | [] => []
  | b0 :: r0 =>
    if (b0 <? 128)%N then b0 :: decode r0
    else if (b0 <? 224)%N then
      match r0 with
      | b1 :: r1 => ((b0 - 192) * 64 + (b1 - 128))%N :: decode r1
      | [] => []
      end
    else if (b0 <? 240)%N then
      match r0 with
      | b1 :: b2 :: r2 =>
        ((b0 - 224) * 4096 + (b1 - 128) * 64 + (b2 - 128))%N :: decode r2
      | _ => []
      end
    else
      match r0 with
      | b1 :: b2 :: b3 :: r3 =>
        ((b0 - 240) * 262144 + (b1 - 128) * 4096 + (b2 - 128) * 64
         + (b3 - 128))%N :: decode r3
      | _ => []
      end
  end.

End Utf8.

(** [u "..."] is the Python [str] written by the literal. *)
Definition u (s : string) : str :=
  Utf8.decode (map N_of_ascii (list_ascii_of_string s)).

Fixpoint str_eqb (a b : str) : bool :=
  match a, b with
  | [], [] => true
  | x :: a', y :: b' => N.eqb x y && str_eqb a' b'
  | _, _ => false
  end.

(** [s.startswith(p)] *)
Fixpoint starts_with (p s : str) : bool :=
  match p, s with
  | [], _ => true
  | x :: p', y :: s' => N.eqb x y && starts_with p' s'
  | _ :: _, [] => false
  end.

(** [p in s]: [p] occurs in [s] as a substring. *)
Fixpoint occurs (p s : str) : bool :=
  starts_with p s ||
  match s with
  | [] => false
  | _ :: s' => occurs p s'
  end.

(** [str.isspace] of one character: the code points CPython's
    [_PyUnicode_IsWhitespace] accepts. *)
Definition py_isspace (c : codepoint) : bool :=
  ((9 <=? c) && (c <=? 13) || (28 <=? c) && (c <=? 32)
   || (c =? 133) || (c =? 160) || (c =? 5760)
   || (8192 <=? c) && (c <=? 8202)
   || (c =? 8232) || (c =? 8233) || (c =? 8239) || (c =? 8287)
   || (c =? 12288))%N.

Fixpoint lstrip (s : str) : str :=
  match s with
  | [] => []
  | c :: s' => if py_isspace c then lstrip s' else s
  end.

Definition rstrip (s : str) : str := rev (lstrip (rev s)).

(** [s.strip()] *)
Definition strip (s : str) : str := rstrip (lstrip s).

(** Truth value of a [str]: non-empty. *)
Definition truthy (s : str) : bool :=
  match s with
  | [] => false
  | _ :: _ => true
  end.

(** [s.replace(old, new)] for a non-empty [old]: every non-overlapping
    occurrence, left to right.  [skip] counts the characters of the
    occurrence being replaced that are still to be passed over. *)
Fixpoint replace_go (old new : str) (skip : nat) (s : str) : str :=
  match s with
  | [] => []
  | c :: s' =>
    match skip with
    | S k => replace_go old new k s'
    | O =>
      if starts_with old s
      then new ++ replace_go old new (length old - 1) s'
      else c :: replace_go old new 0 s'
    end
  end.

(** [s.replace(old, new)].  With an empty [old], Python puts [new]
    before every character and at the end. *)
Definition str_replace (s old new : str) : str :=
  match old with
  | [] => new ++ flat_map (fun c => c :: new) s
  | _ :: _ => replace_go old new 0 s
  end.

(** ** Python dicts (insertion ordered, keys unique) *)

Definition dict (K V : Type) : Type := list (K * V).

(** [d[k] = v]: overwrite in place, or append a new key. *)
Fixpoint dict_set {K V : Type} (keqb : K -> K -> bool)
         (d : dict K V) (k : K) (v : V) : dict K V :=
  match d with
  | [] => [(k, v)]
  | (k', v') :: d' =>
    if keqb k' k then (k', v) :: d' else (k', v') :: dict_set keqb d' k v
  end.

(** [d.get(k)] *)
Fixpoint dict_get {K V : Type} (keqb : K -> K -> bool)
         (d : dict K V) (k : K) : option V :=
  match d with
  | [] => None
  | (k', v') :: d' => if keqb k' k then Some v' else dict_get keqb d' k
  end.

(** ** Results of fallible calls *)

(** An exception of class [cls], a subclass of Python's [Exception]
    (what [except Exception] catches). *)
Inductive exception := PyExc (cls : string).

Inductive result (A : Type) :=
| Ok (a : A)
| Raise (e : exception).

Arguments Ok {A} a.
Arguments Raise {A} e.

Definition AttributeError : exception := PyExc "AttributeError".

(** ** The runtime *)

(** What the program takes from outside the repository:
    - [unicode_alnum]: [str.isalnum] of the Unicode database for the code
      points from 128 on (the regular expression engine asks it for
      [\w] and [\b]);
    - [World]: the world outside the process (network, providers), and
      the two remote calls as transitions of it: the content of the first
      choice of a chat completion, and the text of a DeepL translation;
      either may raise;
    - [USE_OPENAI], [USE_DEEPL]: [bool(os.environ.get("OPENAI_API_KEY"))]
      and the same for DeepL, read once when the module is loaded. *)
Record runtime := Runtime {
  unicode_alnum : codepoint -> bool;
  World : Type;
  chat_completion : str -> World -> result str * World;
  deepl_translate_text : str -> World -> result str * World;
  USE_OPENAI : bool;
  USE_DEEPL : bool
}.

(** ** load_glossary *)

Module Csv.

(** What [csv.reader] yields for a file: one list of fields a record,
    the header record first. *)
Definition records := list (list str).

(** A value of a [csv.DictReader] row: a field, [None] (the [restval]
    of a short row), or the list of surplus fields (under the
    [restkey], which is [None]). *)
Inductive cell :=
| Field (s : str)
| NoneCell
| Rest (l : list str).

Definition key := option str.

Definition key_eqb (a b : key) : bool :=
  match a, b with
  | Some x, Some y => str_eqb x y
  | None, None => true
  | _, _ => false
  end.

Definition row := dict key cell.

(** [dict(zip(fieldnames, row))] *)
Fixpoint zip_dict (d : row) (fieldnames : list str) (r : list str) : row :=
  match fieldnames, r with
  | f :: fs, x :: r' => zip_dict (dict_set key_eqb d (Some f) (Field x)) fs r'
  | _, _ => d
  end.

(** [DictReader.__next__] on a non-blank record. *)
Definition dict_row (fieldnames r : list str) : row :=
  let d := zip_dict [] fieldnames r in
  let lf := length fieldnames in
  let lr := length r in
  if lf <? lr then dict_set key_eqb d None (Rest (skipn lf r))
  else if lr <? lf then
    fold_left (fun d f => dict_set key_eqb d (Some f) NoneCell)
              (skipn lr fieldnames) d
  else d.

Definition is_blank (r : list str) : bool :=
  match r with
  | [] => true
  | _ :: _ => false
  end.

(** The rows [csv.DictReader] yields: the first record gives the field
    names, blank records are passed over. *)
Definition DictReader (f : records) : list row :=
  match f with
  | [] => []
  | fieldnames :: rs =>
    map (dict_row fieldnames) (filter (fun r => negb (is_blank r)) rs)
  end.

(** [row.get(k, "")] *)
Definition get (r : row) (k : str) : cell :=
  match dict_get key_eqb r (Some k) with
  | Some c => c
  | None => Field []
  end.

(** [x.strip()] on a cell: only a [str] has the method. *)
Definition cell_strip (c : cell) : result str :=
  match c with
  | Field s => Ok (strip s)
  | NoneCell | Rest _ => Raise AttributeError
  end.

End Csv.

Definition glossary := dict str str.

(** The two columns of the glossary file. *)
Definition col_en : str := u "en".
Definition col_ja : str := u "ja".

(** The loop body of [load_glossary]. *)
Definition glossary_row (d : glossary) (r : Csv.row) : result glossary :=
  match Csv.cell_strip (Csv.get r col_en) with
  | Raise e => Raise e
  | Ok en =>
    match Csv.cell_strip (Csv.get r col_ja) with
    | Raise e => Raise e
    | Ok ja =>
      Ok (if truthy en && truthy ja then dict_set str_eqb d en ja else d)
    end
  end.

Fixpoint glossary_rows (d : glossary) (rs : list Csv.row) : result glossary :=
  match rs with
  | [] => Ok d
  | r :: rs' =>
    match glossary_row d r with
    | Ok d' => glossary_rows d' rs'
    | Raise e => Raise e
    end
  end.

(** [load_glossary(p)]: [None] is a path that does not exist, [Some f]
    a readable UTF-8 file with the records [f]. *)
Definition load_glossary (p : option Csv.records) : result glossary :=
  match p with
  | None => Ok []
  | Some f => glossary_rows [] (Csv.DictReader f)
  end.

(** ** split_md_blocks *)

(** The fence [```]. *)
Definition fence : str := [96; 96; 96]%N.

(** [.*?```] with DOTALL, anchored: the least number of characters
    before a closing fence. *)
Fixpoint lazy_close (s : str) : option nat :=
  if starts_with fence s then Some 0
  else match s with
       | [] => None
       | _ :: s' => option_map S (lazy_close s')
       end.

(** [```.*?```] anchored at the head of [s]: the length of the match. *)
Definition match_here (s : str) : option nat :=
  if starts_with fence s
  then option_map (fun k => 3 + k + 3) (lazy_close (skipn 3 s))
  else None.

(** [re.search]: the leftmost position with a match, and its length. *)
Fixpoint re_search (s : str) : option (nat * nat) :=
  match match_here s with
  | Some n => Some (0, n)
  | None =>
    match s with
    | [] => None
    | _ :: s' => option_map (fun '(i, n) => (S i, n)) (re_search s')
    end
  end.

(** [re.split(r"(```.*?```)", text, flags=re.DOTALL)]: the text before
    each match, the match itself (the capturing group), and at the end
    the text after the last match.  A match has six characters or more,
    so [length text] rounds are enough ([re_split_fuel_enough]). *)
Fixpoint re_split_fuel (fuel : nat) (s : str) : list str :=
  match fuel with
  | O => [s]
  | S fuel' =>
    match re_search s with
    | None => [s]
    | Some (i, n) =>
      firstn i s :: firstn n (skipn i s) :: re_split_fuel fuel' (skipn (i + n) s)
    end
  end.

Definition re_split (s : str) : list str := re_split_fuel (length s) s.

Inductive kind := code | text.

Definition span : Type := kind * str.

Fixpoint enumerate_from {A : Type} (i : nat) (l : list A) : list (nat * A) :=
  match l with
  | [] => []
  | x :: l' => (i, x) :: enumerate_from (S i) l'
  end.

Definition enumerate {A : Type} (l : list A) : list (nat * A) :=
  enumerate_from 0 l.

(** The body of the loop: the span for part [i]. *)
Definition span_of (i : nat) (part : str) : span :=
  if Nat.eqb (i mod 2) 1 then (code, part) else (text, part).

Definition split_md_blocks (txt : str) : list span :=
  map (fun '(i, part) => span_of i part) (enumerate (re_split txt)).

(** ** rule_based_translate *)

(** A rule of the catalogue: the pattern [\bSTEM(OPT)?\b], compiled
    with [re.IGNORECASE], and the replacement text (no rule of the
    catalogue has a backslash or a group reference in it, and every stem
    is non-empty). *)
Record rule := Rule { stem : str; opt : str; rep : str }.

Definition reps : list rule :=
  [ Rule (u "Execute") (u "s") (u "実行します");
    Rule (u "Search") (u "es") (u "検索します");
    Rule (u "Create") (u "s") (u "作成します");
    Rule (u "Open") (u "s") (u "開きます");
    Rule (u "Read") (u "s") (u "読み取ります");
    Rule (u "Write") (u "s") (u "書き込みます");
    Rule (u "Update") (u "s") (u "更新します");
    Rule (u "Delete") (u "s") (u "削除します");
    Rule (u "List") (u "s") (u "一覧を取得します");
    Rule (u "Return") (u "s") (u "返します");
    Rule (u "Check") (u "s") (u "確認します");
    Rule (u "Validate") (u "s") (u "検証します");
    Rule (u "Generate") (u "s") (u "生成します");
    Rule (u "Upload") (u "s") (u "アップロードします");
    Rule (u "Download") (u "s") (u "ダウンロードします");
    Rule (u "Convert") (u "s") (u "変換します");
    Rule (u "Compare") (u "s") (u "比較します");
    Rule (u "Extract") (u "s") (u "抽出します");
    Rule (u "Filter") (u "s") (u "フィルタします");
    Rule (u "Sort") (u "s") (u "ソートします");
    Rule (u "Summarize") (u "s") (u "要約します");
    Rule (u "Translate") (u "s") (u "翻訳します");
    Rule (u "Analyze") (u "s") (u "分析します");
    Rule (u "Schedule") (u "s") (u "スケジュールします");
    Rule (u "Notify") (u "ies") (u "通知します");
    Rule (u "file") (u "s") (u "ファイル");
    Rule (u "folder") (u "s") (u "フォルダ");
    Rule (u "directory") (u "ies") (u "ディレクトリ");
    Rule (u "path") (u "s") (u "パス");
    Rule (u "command") (u "s") (u "コマンド");
    Rule (u "script") (u "s") (u "スクリプト");
    Rule (u "repository") [] (u "リポジトリ");
    Rule (u "branch") (u "es") (u "ブランチ");
    Rule (u "commit") (u "s") (u "コミット");
    Rule (u "pull request") (u "s") (u "プルリクエスト");
    Rule (u "issue") (u "s") (u "Issue");
    Rule (u "token") (u "s") (u "トークン");
    Rule (u "parameter") (u "s") (u "パラメータ");
    Rule (u "property") (u "ies") (u "プロパティ");
    Rule (u "schema") [] (u "スキーマ");
    Rule (u "model") (u "s") (u "モデル");
    Rule (u "tool") (u "s") (u "ツール");
    Rule (u "query") [] (u "クエリ");
    Rule (u "log") (u "s") (u "ログ");
    Rule (u "error") (u "s") (u "エラー");
    Rule (u "warning") (u "s") (u "警告");
    Rule (u "output") [] (u "出力");
    Rule (u "input") [] (u "入力");
    Rule (u "result") (u "s") (u "結果");
    Rule (u "example") (u "s") (u "例");
    Rule (u "default") [] (u "既定値") ].

Module Re.

Definition ascii_upper (c : codepoint) : bool := ((65 <=? c) && (c <=? 90))%N.
Definition ascii_lower (c : codepoint) : bool := ((97 <=? c) && (c <=? 122))%N.
Definition ascii_digit (c : codepoint) : bool := ((48 <=? c) && (c <=? 57))%N.

(** The characters a literal [p] of a pattern matches under
    [re.IGNORECASE]: a letter of ASCII matches its two cases and the
    code points the Unicode database folds to them (U+0130 and U+0131
    for i, U+017F for s, U+212A for k); any other literal of the
    catalogue (the space) matches itself only. *)
Definition ci_char (p c : codepoint) : bool :=
  if ascii_upper p || ascii_lower p then
    let lo := if ascii_upper p then (p + 32)%N else p in
    ((c =? lo) || (c =? lo - 32)
     || (lo =? 105) && ((c =? 304) || (c =? 305))
     || (lo =? 115) && (c =? 383)
     || (lo =? 107) && (c =? 8490))%N
  else (c =? p)%N.

(** The literals [p] match at the head of [s]. *)
Fixpoint ci_prefix (p s : str) : bool :=
  match p, s with
  | [], _ => true
  | x :: p', y :: s' => ci_char x y && ci_prefix p' s'
  | _ :: _, [] => false
  end.

End Re.

(** [\w] of a [str] pattern: alphanumeric or the underscore. *)
Definition is_word (rt : runtime) (c : codepoint) : bool :=
  if (c <? 128)%N
  then Re.ascii_upper c || Re.ascii_lower c || Re.ascii_digit c || (c =? 95)%N
  else unicode_alnum rt c.

Definition is_word_opt (rt : runtime) (o : option codepoint) : bool :=
  match o with
  | Some c => is_word rt c
  | None => false
  end.

(** [\b] between two neighbours ([None]: an end of the string). *)
Definition word_boundary (rt : runtime) (before after : option codepoint)
  : bool :=
  xorb (is_word_opt rt before) (is_word_opt rt after).

(** The match of [\bSTEM(OPT)?\b] at the head of [s], where [prev] is
    the character before it: the length matched.  The optional group
    is greedy: it is tried first. *)
Definition rule_match (rt : runtime) (r : rule) (prev : option codepoint)
           (s : str) : option nat :=
  let n1 := length (stem r) in
  let n2 := n1 + length (opt r) in
  let bound n := word_boundary rt (nth_error s (n - 1)) (nth_error s n) in
  if Re.ci_prefix (stem r) s && word_boundary rt prev (hd_error s) then
    if Re.ci_prefix (opt r) (skipn n1 s) && bound n2 then Some n2
    else if bound n1 then Some n1
    else None
  else None.

(** [re.sub(pat, rep, s, flags=re.IGNORECASE)]: a scan from the left;
    [prev] is the character just passed, [skip] the number of
    characters of the current match still to pass. *)
Fixpoint sub_go (rt : runtime) (r : rule) (prev : option codepoint)
         (skip : nat) (s : str) : str :=
  match s with
  | [] => []
  | c :: s' =>
    match skip with
    | S k => sub_go rt r (Some c) k s'
    | O =>
      match rule_match rt r prev s with
      | Some (S k) => rep r ++ sub_go rt r (Some c) k s'
      | _ => c :: sub_go rt r (Some c) 0 s'
      end
    end
  end.

Definition re_sub (rt : runtime) (r : rule) (s : str) : str :=
  sub_go rt r None 0 s.

(** [for pat, rep in reps: out = re.sub(...)] *)
Definition pattern_rules (rt : runtime) (s : str) : str :=
  fold_left (fun out r => re_sub rt r out) reps s.

(** [for en, ja in glossary.items(): out = out.replace(en, ja)] *)
Definition glossary_subst (g : glossary) (s : str) : str :=
  fold_left (fun out '(en, ja) => str_replace out en ja) g s.

(** [out.replace(" e.g.", " 例:").replace(" i.e.", " すなわち ")] *)
Definition abbreviations (s : str) : str :=
  str_replace (str_replace s (u " e.g.") (u " 例:"))
              (u " i.e.") (u " すなわち ").

Definition rule_based_translate (rt : runtime) (s : str) (g : glossary) : str :=
  abbreviations (glossary_subst g (pattern_rules rt s)).

(** ** The dispatcher *)

Inductive backend := OpenAI | DeepL.

(** The state threaded through the pipeline: the world, and a record of
    the backend calls made so far (kept for the statements; the program
    has no such log). *)
Record env (rt : runtime) := Env {
  world : World rt;
  calls : list (backend * str)
}.

Arguments Env {rt} world calls.
Arguments world {rt} e.
Arguments calls {rt} e.

Definition openai_translate (rt : runtime) (txt : str) (e : env rt)
  : result str * env rt :=
  let '(r, w) := chat_completion rt txt (world e) in
  let e' := Env w (calls e ++ [(OpenAI, txt)]) in
  match r with
  | Ok content => (Ok (strip content), e')
  | Raise x => (Raise x, e')
  end.

Definition deepl_translate (rt : runtime) (txt : str) (e : env rt)
  : result str * env rt :=
  let '(r, w) := deepl_translate_text rt txt (world e) in
  (r, Env w (calls e ++ [(DeepL, txt)])).

(** The separator of the bilingual f-string: two newlines, the label
    in brackets, a newline. *)
Definition bilingual_separator : str :=
  [10; 10]%N ++ u "[English]" ++ [10]%N.

(** The [try] block of [translate_text_block]. *)
Definition select_backend (rt : runtime) (txt : str) (g : glossary)
           (e : env rt) : result str * env rt :=
  if USE_OPENAI rt then openai_translate rt txt e
  else if USE_DEEPL rt then deepl_translate rt txt e
  else (Ok (rule_based_translate rt txt g), e).

(** The [try] / [except Exception] statement: the value of [ja]. *)
Definition translated (rt : runtime) (txt : str) (g : glossary) (e : env rt)
  : str * env rt :=
  match select_backend rt txt g e with
  | (Ok ja, e') => (ja, e')
  | (Raise _, e') => (rule_based_translate rt txt g, e')
  end.

Definition translate_text_block
           (rt : runtime) (txt : str) (g : glossary) (bilingual : bool)
           (e : env rt) : str * env rt :=
  if negb (truthy (strip txt)) then (txt, e)
  else
    let '(ja, e') := translated rt txt g e in
    (if negb bilingual then ja else ja ++ bilingual_separator ++ txt, e').

(** ** translate_markdown_like *)

(** The loop of [translate_markdown_like]: the list [out]. *)
Fixpoint translate_spans
         (rt : runtime) (spans : list span) (g : glossary) (bilingual : bool)
         (e : env rt) : list str * env rt :=
  match spans with
  | [] => ([], e)
  | (k, part) :: rest =>
    let '(piece, e1) :=
      match k with
      | code => (part, e)
      | text => translate_text_block rt part g bilingual e
      end in
    let '(out, e2) := translate_spans rt rest g bilingual e1 in
    (piece :: out, e2)
  end.

Definition translate_markdown_like
           (rt : runtime) (txt : str) (g : glossary) (bilingual : bool)
           (e : env rt) : str * env rt :=
  let '(out, e') := translate_spans rt (split_md_blocks txt) g bilingual e in
  (concat out, e').

(** ** translate_json_descriptions *)

(** What [json.loads] builds: dicts with [str] keys, lists and scalars
    (a float is kept by its IEEE 754 bits). *)
#[local] Unset Elimination Schemes.
Inductive json :=
| JNull
| JBool (b : bool)
| JInt (n : Z)
| JFloat (bits : Z)
| JStr (s : str)
| JList (l : list json)
| JDict (d : list (str * json)).
#[local] Set Elimination Schemes.

Definition key_description : str := u "description".

(** [for k, v in obj.items(): new[k] = ...], where [walk] is the
    recursive call. *)
Fixpoint walk_items
         (rt : runtime) (walk : json -> env rt -> json * env rt)
         (g : glossary) (bilingual : bool)
         (d new : list (str * json)) (e : env rt)
  : list (str * json) * env rt :=
  match d with
  | [] => (new, e)
  | (k, v) :: d' =>
    let '(v', e') :=
      match v with
      | JStr s =>
        if str_eqb k key_description
        then let '(t, e1) := translate_text_block rt s g bilingual e in
             (JStr t, e1)
        else walk v e
      | _ => walk v e
      end in
    walk_items rt walk g bilingual d' (dict_set str_eqb new k v') e'
  end.

(** [[translate_json_descriptions(x, ...) for x in obj]] *)
Fixpoint walk_elems
         (rt : runtime) (walk : json -> env rt -> json * env rt)
         (l : list json) (e : env rt) : list json * env rt :=
  match l with
  | [] => ([], e)
  | x :: l' =>
    let '(x', e1) := walk x e in
    let '(r, e2) := walk_elems rt walk l' e1 in
    (x' :: r, e2)
  end.

Fixpoint translate_json_descriptions
         (rt : runtime) (obj : json) (g : glossary) (bilingual : bool)
         (e : env rt) : json * env rt :=
  match obj with
  | JDict d =>
    let '(new, e') :=
      walk_items rt
                 (fun v e => translate_json_descriptions rt v g bilingual e)
                 g bilingual d [] e in
    (JDict new, e')
  | JList l =>
    let '(l', e') :=
      walk_elems rt
                 (fun x e => translate_json_descriptions rt x g bilingual e)
                 l e in
    (JList l', e')
  | _ => (obj, e)
  end.

(* ================================================================== *)
(** * Part II: notions used in the statements *)
(* ================================================================== *)

(** ** Documents written as closed blocks and a tail *)

(** A closed block: the text [pre] before it, with no fence in it (nor
    one that its last characters would start with the opening fence),
    and the [body] between the two fences, the closing fence being the
    first one after the opening fence. *)
Definition block : Type := str * str.

Definition backticks2 : str := [96; 96]%N.

Definition block_ok (b : block) : Prop :=
  occurs fence (fst b ++ backticks2) = false /\
  occurs fence (snd b ++ backticks2) = false.

Definition fenced (body : str) : str := fence ++ body ++ fence.

Definition block_str (b : block) : str := fst b ++ fenced (snd b).

Definition block_spans (b : block) : list span :=
  [(text, fst b); (code, fenced (snd b))].

(** The document made of the blocks [bs] and then [tail]. *)
Definition document (bs : list block) (tail : str) : str :=
  concat (map block_str bs) ++ tail.

(** ** The network backend *)

(** The network backend the flags select, if any. *)
Definition selected_backend (rt : runtime) : option backend :=
  if USE_OPENAI rt then Some OpenAI
  else if USE_DEEPL rt then Some DeepL
  else None.

(** The remote call behind a backend. *)
Definition remote (rt : runtime) (bk : backend)
  : str -> World rt -> result str * World rt :=
  match bk with
  | OpenAI => chat_completion rt
  | DeepL => deepl_translate_text rt
  end.

(** ** Shapes of JSON trees *)

(** The keys of a list are pairwise different. *)
Fixpoint nodup_keys (ks : list str) : bool :=
  match ks with
  | [] => true
  | k :: ks' => negb (existsb (str_eqb k) ks') && nodup_keys ks'
  end.

(** Every mapping of the tree has pairwise different keys, as a Python
    [dict] has. *)
Fixpoint unique_keys (j : json) : bool :=
  match j with
  | JList l => forallb unique_keys l
  | JDict d =>
    nodup_keys (map fst d)
    && forallb (fun kv => let '(_, v) := kv in unique_keys v) d
  | _ => true
  end.

(** An entry the walker translates: the key is ["description"] and the
    value a string. *)
Definition is_description (kv : str * json) : Prop :=
  fst kv = key_description /\ exists s, snd kv = JStr s.

(** [walked rt g bilingual j j']: [j'] is [j] with the same mappings
    (the same keys in the same order), the same sequences (the same
    length and order) and the same scalars, but for the strings that are
    the value of a key ["description"], which are replaced by what
    [translate_text_block] returns for them (in some state of the
    environment). *)
Inductive walked (rt : runtime) (g : glossary) (bilingual : bool)
  : json -> json -> Prop :=
| walked_null : walked rt g bilingual JNull JNull
| walked_bool b : walked rt g bilingual (JBool b) (JBool b)
| walked_int n : walked rt g bilingual (JInt n) (JInt n)
| walked_float bits : walked rt g bilingual (JFloat bits) (JFloat bits)
| walked_str s : walked rt g bilingual (JStr s) (JStr s)
| walked_list l l' :
    Forall2 (walked rt g bilingual) l l' ->
    walked rt g bilingual (JList l) (JList l')
| walked_dict d d' :
    Forall2 (walked_entry rt g bilingual) d d' ->
    walked rt g bilingual (JDict d) (JDict d')
with walked_entry (rt : runtime) (g : glossary) (bilingual : bool)
  : str * json -> str * json -> Prop :=
| entry_description s e :
    walked_entry rt g bilingual
                 (key_description, JStr s)
                 (key_description,
                  JStr (fst (translate_text_block rt s g bilingual e)))
| entry_other k v v' :
    ~ is_description (k, v) ->
    walked rt g bilingual v v' ->
    walked_entry rt g bilingual (k, v) (k, v').

(** Structural induction on JSON trees. *)
Section JsonInduction.

Variable P : json -> Prop.
Hypothesis HNull : P JNull.
Hypothesis HBool : forall b, P (JBool b).
Hypothesis HInt : forall n, P (JInt n).
Hypothesis HFloat : forall bits, P (JFloat bits).
Hypothesis HStr : forall s, P (JStr s).
Hypothesis HList : forall l, Forall P l -> P (JList l).
Hypothesis HDict : forall d, Forall (fun kv => P (snd kv)) d -> P (JDict d).

Fixpoint json_induction (j : json) : P j :=
  match j with
  | JNull => HNull
  | JBool b => HBool b
  | JInt n => HInt n
  | JFloat bits => HFloat bits
  | JStr s => HStr s
  | JList l =>
    HList l ((fix all (l : list json) : Forall P l :=
                match l with
                | [] => Forall_nil P
                | x :: l' => Forall_cons x (json_induction x) (all l')
                end) l)
  | JDict d =>
    HDict d ((fix all (d : list (str * json))
              : Forall (fun kv => P (snd kv)) d :=
                match d with
                | [] => Forall_nil _
                | (k, v) :: d' =>
                  Forall_cons (P := fun kv => P (snd kv)) (k, v)
                              (json_induction v) (all d')
                end) d)
  end.

End JsonInduction.

(** ** Target terms *)

(** No character of [ja] is one of the two abbreviation markers
    [" e.g."] and [" i.e."]. *)
Definition marker_free (ja : str) : bool :=
  forallb (fun c => negb (existsb (N.eqb c) (u " e.g." ++ u " i.e."))) ja.

(** ** Instances of the runtime *)

Module Sample.

(** An excerpt of the alphanumeric table: the hiragana and katakana
    letters, the prolonged sound mark and the CJK unified ideographs,
    which is where the replacements of the catalogue are drawn from. *)
Definition alnum (c : codepoint) : bool :=
  ((12353 <=? c) && (c <=? 12438)
   || (12449 <=? c) && (c <=? 12538)
   || (c =? 12540)
   || (19968 <=? c) && (c <=? 40959))%N.

(** A provider that answers with the text it was sent; the world counts
    the remote calls made. *)
Definition echo (txt : str) (w : nat) : result str * nat :=
  (Ok txt, S w).

(** A provider that is out of reach. *)
Definition unreachable (txt : str) (w : nat) : result str * nat :=
  (Raise (PyExc "ConnectionError"), S w).

(** No credentials: the pattern translator alone. *)
Definition offline : runtime :=
  Runtime alnum nat echo echo false false.

(** DeepL credentials only, and a provider that echoes. *)
Definition deepl_echo : runtime :=
  Runtime alnum nat echo echo false true.

(** OpenAI credentials, and a provider out of reach. *)
Definition openai_down : runtime :=
  Runtime alnum nat unreachable echo true true.

Definition start (rt : runtime) (w : World rt) : env rt := Env w [].

End Sample.

(** ** Notions for the glossary file *)

(** A glossary entry as [load_glossary] stores it: neither term empty,
    neither with whitespace at an end. *)
Definition entry_ok (p : str * str) : bool :=
  truthy (fst p) && truthy (snd p)
  && str_eqb (strip (fst p)) (fst p) && str_eqb (strip (snd p)) (snd p).


(** What a row contributes to the glossary, if anything. *)
Definition row_entry (r : Csv.row) : option (str * str) :=
  match Csv.get r col_en, Csv.get r col_ja with
  | Csv.Field a, Csv.Field b =>
    if truthy (strip a) && truthy (strip b)
    then Some (strip a, strip b)
    else None
  | _, _ => None
  end.

(** The target term of the last row that has the source term [k]. *)
Fixpoint last_target (rs : list Csv.row) (k : str) : option str :=
  match rs with
  | [] => None
  | r :: rs' =>
    match last_target rs' k with
    | Some ja => Some ja
    | None =>
      match row_entry r with
      | Some (en, ja) => if str_eqb en k then Some ja else None
      | None => None
      end
    end
  end.


(** ** Notions for the pattern translator *)

(** The characters a letter of a pattern can match: the letters of ASCII
    and the four code points that fold to one of them. *)
Definition ci_letter (c : codepoint) : bool :=
  Re.ascii_upper c || Re.ascii_lower c
  || (c =? 304)%N || (c =? 305)%N || (c =? 383)%N || (c =? 8490)%N.

(** A text with none of these characters. *)
Definition letter_free (s : str) : bool :=
  forallb (fun c => negb (ci_letter c)) s.

(** The stem of the rule starts with a letter of ASCII. *)
Definition letter_headed (r : rule) : bool :=
  match stem r with
  | p :: _ => Re.ascii_upper p || Re.ascii_lower p
  | [] => false
  end.

(** ** Notions for the calls made *)

(** The backend calls [translate_text_block] makes for a text: one to
    the selected backend, or none (a text of whitespace, no backend). *)
Definition sent (rt : runtime) (txt : str) : list (backend * str) :=
  if forallb py_isspace txt then []
  else match selected_backend rt with
       | Some bk => [(bk, txt)]
       | None => []
       end.

(** The same for a span: nothing for a code span. *)
Definition sent_span (rt : runtime) (sp : span) : list (backend * str) :=
  match fst sp with
  | code => []
  | text => sent rt (snd sp)
  end.

(** What [translate_text_block] returns around the translated text
    [ja]. *)
Definition compose (ja original : str) (bilingual : bool) : str :=
  if bilingual then ja ++ bilingual_separator ++ original else ja.

(** The strings a tree holds under a key ["description"], in the order
    of the document. *)
Fixpoint descriptions (j : json) : list str :=
  match j with
  | JList l => flat_map descriptions l
  | JDict d =>
    flat_map (fun kv =>
                let '(k, v) := kv in
                match v with
                | JStr s => if str_eqb k key_description then [s] else []
                | _ => descriptions v
                end) d
  | _ => []
  end.

(** OpenAI credentials only, and a provider that echoes. *)
Definition openai_echo : runtime :=
  Runtime Sample.alnum nat Sample.echo Sample.unreachable true false.

(** One round of the loop over the items of a mapping: the new value
    for the key [k], where [walk] is the recursive call. *)
Definition walk_entry (rt : runtime) (walk : json -> env rt -> json * env rt)
           (g : glossary) (bilingual : bool)
           (k : str) (v : json) (e : env rt) : json * env rt :=
  match v with
  | JStr s =>
    if str_eqb k key_description
    then let '(t, e1) := translate_text_block rt s g bilingual e in
         (JStr t, e1)
    else walk v e
  | _ => walk v e
  end.

(** The strings an item of a mapping holds under a key ["description"]. *)
Definition entry_descriptions (kv : str * json) : list str :=
  let '(k, v) := kv in
  match v with
  | JStr s => if str_eqb k key_description then [s] else []
  | _ => descriptions v
  end.

(** ** Notions for the order of a glossary *)

(** The entries the rows contribute, in the order of the file. *)
Definition row_entries (rs : list Csv.row) : list (str * str) :=
  flat_map (fun r => match row_entry r with
                     | Some p => [p]
                     | None => []
                     end) rs.

(** A key joins the list at its end when it is seen for the first
    time. *)
Definition add_key (ks : list str) (k : str) : list str :=
  if existsb (str_eqb k) ks then ks else ks ++ [k].

(** The keys in the order in which they are first seen. *)
Definition first_seen (ks : list str) : list str :=
  fold_left add_key ks [].

(* ================================================================== *)
(** * Part III: properties *)
(* ================================================================== *)

(** ** Strings *)

Lemma str_eqb_eq (a b : str) : str_eqb a b = true <-> a = b.
Proof.
  revert b; induction a as [|x a IH]; intros [|y b]; simpl;
    try (split; [discriminate | congruence]); try tauto.
  rewrite andb_true_iff, N.eqb_eq, IH. split.
  - intros [-> ->]; reflexivity.
  - intros H; injection H; auto.
Qed.

Lemma str_eqb_refl (a : str) : str_eqb a a = true.
Proof. apply str_eqb_eq; reflexivity. Qed.

Lemma str_eqb_neq (a b : str) : str_eqb a b = false <-> a <> b.
Proof.
  rewrite <- str_eqb_eq. destruct (str_eqb a b); split; congruence.
Qed.

Lemma starts_with_app (p s : str) : starts_with p (p ++ s) = true.
Proof.
  induction p as [|x p IH]; simpl; [reflexivity|].
  rewrite N.eqb_refl, IH; reflexivity.
Qed.

Lemma starts_with_length (p s : str) :
  starts_with p s = true -> length p <= length s.
Proof.
  revert s; induction p as [|x p IH]; intros [|y s]; simpl;
    try discriminate; try lia.
  rewrite andb_true_iff; intros [_ H]; apply IH in H; lia.
Qed.

Lemma starts_with_split (p s : str) :
  starts_with p s = true -> s = p ++ skipn (length p) s.
Proof.
  revert s; induction p as [|x p IH]; intros [|y s]; simpl;
    try discriminate; try reflexivity.
  rewrite andb_true_iff, N.eqb_eq; intros [-> H].
  f_equal; apply IH, H.
Qed.

Lemma occurs_cons (p : str) (c : codepoint) (s : str) :
  occurs p (c :: s) = starts_with p (c :: s) || occurs p s.
Proof. reflexivity. Qed.

Lemma occurs_app_r (p a s : str) : occurs p s = true -> occurs p (a ++ s) = true.
Proof.
  intros H; induction a as [|c a IH]; simpl; [exact H|].
  rewrite IH; apply orb_true_r.
Qed.

Lemma occurs_here (p s : str) : occurs p (p ++ s) = true.
Proof.
  destruct p as [|x p]; destruct s as [|y s]; simpl; try reflexivity;
    rewrite N.eqb_refl, starts_with_app; reflexivity.
Qed.

Lemma occurs_split (p s : str) :
  occurs p s = true -> exists a b, s = a ++ p ++ b.
Proof.
  induction s as [|c s IH].
  - simpl; rewrite orb_false_r; intros H.
    exists [], []. destruct p; [reflexivity | discriminate].
  - rewrite occurs_cons, orb_true_iff; intros [H | H].
    + exists [], (skipn (length p) (c :: s)). apply starts_with_split, H.
    + destruct (IH H) as (a & b & ->). exists (c :: a), b; reflexivity.
Qed.

Lemma occurs_tl (p s : str) : occurs p s = false -> occurs p (tl s) = false.
Proof.
  destruct s as [|c s]; [auto|].
  rewrite occurs_cons, orb_false_iff; intros [_ H]; exact H.
Qed.

(** ** Whitespace *)

Lemma lstrip_nil_iff (s : str) : lstrip s = [] <-> forallb py_isspace s = true.
Proof.
  induction s as [|c s IH]; simpl; [tauto|].
  destruct (py_isspace c); simpl; [exact IH|].
  split; discriminate.
Qed.

Lemma forallb_rev (A : Type) (f : A -> bool) (l : list A) :
  forallb f (rev l) = forallb f l.
Proof.
  induction l as [|x l IH]; simpl; [reflexivity|].
  rewrite forallb_app, IH; simpl. rewrite andb_true_r, andb_comm; reflexivity.
Qed.

Lemma lstrip_suffix (s : str) : exists a, s = a ++ lstrip s /\ forallb py_isspace a = true.
Proof.
  induction s as [|c s (a & E & Ha)]; simpl.
  - exists []; auto.
  - destruct (py_isspace c) eqn:Hc.
    + exists (c :: a); simpl. rewrite Hc, Ha. split; [congruence | reflexivity].
    + exists []; auto.
Qed.

(** [text.strip()] is empty exactly when every character of [text] is
    whitespace (the empty text included). *)
Lemma strip_nil_iff (s : str) : strip s = [] <-> forallb py_isspace s = true.
Proof.
  unfold strip, rstrip. split.
  - intros H.
    assert (H1 : lstrip (rev (lstrip s)) = []).
    { destruct (lstrip (rev (lstrip s))) as [|c l]; [reflexivity|].
      simpl in H; destruct (rev l); discriminate. }
    apply lstrip_nil_iff in H1. rewrite forallb_rev in H1.
    destruct (lstrip_suffix s) as (a & E & Ha).
    rewrite E, forallb_app, Ha, H1; reflexivity.
  - intros H. apply lstrip_nil_iff in H. rewrite H; reflexivity.
Qed.

Lemma truthy_strip (s : str) :
  truthy (strip s) = negb (forallb py_isspace s).
Proof.
  destruct (forallb py_isspace s) eqn:H.
  - apply strip_nil_iff in H; rewrite H; reflexivity.
  - destruct (strip s) eqn:E; [|reflexivity].
    apply strip_nil_iff in E; congruence.
Qed.

(** ** The segmenter: the regular expression *)

Lemma lazy_close_eq (s : str) :
  lazy_close s =
  if starts_with fence s then Some 0
  else match s with
       | [] => None
       | _ :: s' => option_map S (lazy_close s')
       end.
Proof. destruct s; reflexivity. Qed.

Lemma re_search_eq (s : str) :
  re_search s =
  match match_here s with
  | Some n => Some (0, n)
  | None =>
    match s with
    | [] => None
    | _ :: s' => option_map (fun '(i, n) => (S i, n)) (re_search s')
    end
  end.
Proof. destruct s; reflexivity. Qed.

Lemma lazy_close_bound (s : str) (k : nat) :
  lazy_close s = Some k -> k + 3 <= length s.
Proof.
  revert k; induction s as [|c s IH]; intros k; rewrite lazy_close_eq.
  - simpl; discriminate.
  - destruct (starts_with fence (c :: s)) eqn:F.
    + intros H; injection H as <-. apply starts_with_length in F; exact F.
    + destruct (lazy_close s) as [k'|]; simpl; [|discriminate].
      intros H; injection H as <-. specialize (IH k' eq_refl); simpl; lia.
Qed.

Lemma match_here_bound (s : str) (n : nat) :
  match_here s = Some n -> 6 <= n <= length s.
Proof.
  unfold match_here. destruct (starts_with fence s) eqn:F; [|discriminate].
  destruct (lazy_close (skipn 3 s)) as [k|] eqn:L; simpl; [|discriminate].
  intros H; injection H as <-.
  apply lazy_close_bound in L. rewrite length_skipn in L.
  apply starts_with_length in F; simpl in F. lia.
Qed.

Lemma re_search_bound (s : str) (i n : nat) :
  re_search s = Some (i, n) -> 6 <= n /\ i + n <= length s.
Proof.
  revert i; induction s as [|c s IH]; intros i; rewrite re_search_eq.
  - simpl; discriminate.
  - destruct (match_here (c :: s)) as [m|] eqn:M.
    + intros H; injection H as <- <-. apply match_here_bound in M; lia.
    + destruct (re_search s) as [[i' n']|]; simpl; [|discriminate].
      intros H; injection H as <- <-.
      destruct (IH i' eq_refl); simpl; lia.
Qed.

(** No match when no fence is left three characters on: an opening fence
    there may be, a closing one there is not. *)
Lemma lazy_close_none (s : str) : occurs fence s = false -> lazy_close s = None.
Proof.
  induction s as [|c s IH]; rewrite lazy_close_eq.
  - reflexivity.
  - rewrite occurs_cons, orb_false_iff; intros [-> H].
    rewrite (IH H); reflexivity.
Qed.

Lemma re_search_none (s : str) :
  occurs fence (skipn 3 s) = false -> re_search s = None.
Proof.
  induction s as [|c s IH]; intros H; rewrite re_search_eq.
  - reflexivity.
  - unfold match_here. rewrite (lazy_close_none _ H).
    destruct (starts_with fence (c :: s)); simpl; rewrite IH; auto;
      replace (skipn 3 s) with (tl (skipn 3 (c :: s)))
        by (destruct s as [|? [|? [|? ?]]]; reflexivity);
      apply occurs_tl, H.
Qed.

(** ** The segmenter: re.split *)

Lemma re_split_fuel_concat (fuel : nat) (s : str) :
  concat (re_split_fuel fuel s) = s.
Proof.
  revert s; induction fuel as [|fuel IH]; intros s; simpl.
  - apply app_nil_r.
  - destruct (re_search s) as [[i n]|]; simpl; [|apply app_nil_r].
    rewrite IH, (Nat.add_comm i n), <- skipn_skipn.
    rewrite firstn_skipn; apply firstn_skipn.
Qed.

Lemma re_split_fuel_odd (fuel : nat) (s : str) :
  Nat.odd (length (re_split_fuel fuel s)) = true.
Proof.
  revert s; induction fuel as [|fuel IH]; intros s; simpl; [reflexivity|].
  destruct (re_search s) as [[i n]|]; [|reflexivity].
  simpl length. rewrite Nat.odd_succ_succ. apply IH.
Qed.

(** Any fuel from the length of the text on gives the same parts. *)
Lemma re_split_fuel_enough (f1 f2 : nat) (s : str) :
  length s <= f1 -> length s <= f2 -> re_split_fuel f1 s = re_split_fuel f2 s.
Proof.
  revert f2 s; induction f1 as [|f1 IH]; intros f2 s H1 H2.
  - destruct s; [|simpl in H1; lia]. destruct f2; reflexivity.
  - destruct f2 as [|f2].
    + destruct s; [|simpl in H2; lia]. reflexivity.
    + simpl. destruct (re_search s) as [[i n]|] eqn:R; [|reflexivity].
      apply re_search_bound in R. do 2 f_equal.
      apply IH; rewrite length_skipn; lia.
Qed.

Lemma re_split_no_match (s : str) : re_search s = None -> re_split s = [s].
Proof.
  unfold re_split. destruct (length s); simpl; [reflexivity|].
  intros ->; reflexivity.
Qed.

Lemma re_split_match (s : str) (i n : nat) :
  re_search s = Some (i, n) ->
  re_split s = firstn i s :: firstn n (skipn i s) :: re_split (skipn (i + n) s).
Proof.
  intros R. pose proof (re_search_bound _ _ _ R) as [Hn Hl].
  unfold re_split. destruct (length s) as [|f] eqn:L; [lia|].
  simpl. rewrite R. do 2 f_equal.
  apply re_split_fuel_enough; rewrite length_skipn; lia.
Qed.

(** ** The segmenter: the spans *)

Lemma split_md_blocks_unfold (txt : str) :
  split_md_blocks txt =
  map (fun p => span_of (fst p) (snd p)) (enumerate (re_split txt)).
Proof.
  unfold split_md_blocks. apply map_ext. intros [i part]; reflexivity.
Qed.

Lemma enumerate_from_app (A : Type) (i : nat) (l1 l2 : list A) :
  enumerate_from i (l1 ++ l2) =
  enumerate_from i l1 ++ enumerate_from (i + length l1) l2.
Proof.
  revert i; induction l1 as [|x l1 IH]; intros i; simpl.
  - rewrite Nat.add_0_r; reflexivity.
  - rewrite IH. do 3 f_equal. lia.
Qed.

Lemma nth_error_enumerate_from (A : Type) (i j : nat) (l : list A) :
  nth_error (enumerate_from i l) j = option_map (pair (i + j)) (nth_error l j).
Proof.
  revert i j; induction l as [|x l IH]; intros i [|j]; simpl; try reflexivity.
  - rewrite Nat.add_0_r; reflexivity.
  - rewrite IH. replace (S i + j) with (i + S j) by lia. reflexivity.
Qed.

Lemma span_of_snd (i : nat) (part : str) : snd (span_of i part) = part.
Proof. unfold span_of; destruct (Nat.eqb (i mod 2) 1); reflexivity. Qed.

Lemma mod2_eqb_odd (i : nat) : Nat.eqb (i mod 2) 1 = Nat.odd i.
Proof.
  destruct (Nat.odd i) eqn:O.
  - apply Nat.odd_spec in O. destruct O as [k ->].
    rewrite Nat.add_comm, Nat.mul_comm, Nat.Div0.mod_add. reflexivity.
  - apply Nat.eqb_neq. intros E.
    assert (Nat.odd i = true); [|congruence].
    apply Nat.odd_spec. exists (i / 2).
    rewrite (Nat.div_mod_eq i 2) at 1. lia.
Qed.

Lemma span_of_fst (i : nat) (part : str) :
  fst (span_of i part) = if Nat.even i then text else code.
Proof.
  unfold span_of. rewrite mod2_eqb_odd, <- Nat.negb_even.
  destruct (Nat.even i); reflexivity.
Qed.

Lemma split_md_blocks_contents (txt : str) :
  map snd (split_md_blocks txt) = re_split txt.
Proof.
  rewrite split_md_blocks_unfold. unfold enumerate.
  generalize 0 as i. induction (re_split txt) as [|x l IH]; intros i; simpl.
  - reflexivity.
  - rewrite span_of_snd, IH. reflexivity.
Qed.

Lemma split_md_blocks_nth (txt : str) (i : nat) :
  nth_error (split_md_blocks txt) i =
  option_map (span_of i) (nth_error (re_split txt) i).
Proof.
  rewrite split_md_blocks_unfold, nth_error_map. unfold enumerate.
  rewrite nth_error_enumerate_from.
  destruct (nth_error (re_split txt) i); reflexivity.
Qed.

Lemma split_md_blocks_length (txt : str) :
  length (split_md_blocks txt) = length (re_split txt).
Proof.
  rewrite <- split_md_blocks_contents, length_map. reflexivity.
Qed.

(** ** Documents written as closed blocks and a tail *)

Lemma firstn_length_app (A : Type) (a b : list A) : firstn (length a) (a ++ b) = a.
Proof. induction a; simpl; congruence. Qed.

Lemma skipn_length_app (A : Type) (a b : list A) : skipn (length a) (a ++ b) = b.
Proof. induction a; simpl; congruence. Qed.

Lemma starts_with_fence_pad (a x : str) :
  a <> [] ->
  starts_with fence (a ++ backticks2 ++ x) = starts_with fence (a ++ backticks2).
Proof.
  destruct a as [|a1 [|a2 [|a3 a]]]; intros H; [congruence| | |]; reflexivity.
Qed.

Lemma no_fence_at_head (c : codepoint) (a x : str) :
  occurs fence ((c :: a) ++ backticks2) = false ->
  starts_with fence ((c :: a) ++ fence ++ x) = false.
Proof.
  intros H. change (fence ++ x) with (backticks2 ++ (96%N :: x)).
  rewrite starts_with_fence_pad by discriminate.
  simpl app in H. rewrite occurs_cons in H.
  apply orb_false_iff in H; apply H.
Qed.

Lemma lazy_close_body (body rest : str) :
  occurs fence (body ++ backticks2) = false ->
  lazy_close (body ++ fence ++ rest) = Some (length body).
Proof.
  induction body as [|c body IH]; intros H; rewrite lazy_close_eq.
  - reflexivity.
  - rewrite (no_fence_at_head _ _ _ H), <- app_comm_cons.
    rewrite IH; [reflexivity|].
    apply (occurs_tl fence ((c :: body) ++ backticks2)), H.
Qed.

Lemma match_here_fenced (body rest : str) :
  occurs fence (body ++ backticks2) = false ->
  match_here (fenced body ++ rest) = Some (3 + length body + 3).
Proof.
  intros H. unfold match_here, fenced.
  rewrite <- !app_assoc. change (skipn 3 (fence ++ ?x)) with x.
  rewrite starts_with_app. simpl skipn.
  rewrite (lazy_close_body _ _ H). reflexivity.
Qed.

Lemma re_search_after_text (pre x : str) :
  occurs fence (pre ++ backticks2) = false ->
  re_search (pre ++ fence ++ x) =
  option_map (fun '(i, n) => (length pre + i, n)) (re_search (fence ++ x)).
Proof.
  induction pre as [|c pre IH]; intros H.
  - change ([] ++ fence ++ x) with (fence ++ x).
    destruct (re_search (fence ++ x)) as [[i n]|]; reflexivity.
  - rewrite re_search_eq. unfold match_here.
    rewrite (no_fence_at_head _ _ _ H), <- app_comm_cons.
    rewrite IH by (apply (occurs_tl fence ((c :: pre) ++ backticks2)), H).
    destruct (re_search (fence ++ x)) as [[i n]|]; reflexivity.
Qed.

Lemma re_search_block (b : block) (rest : str) :
  block_ok b ->
  re_search (block_str b ++ rest) = Some (length (fst b), 3 + length (snd b) + 3).
Proof.
  intros [Hp Hb]. unfold block_str, fenced.
  rewrite <- !app_assoc. rewrite (re_search_after_text _ _ Hp).
  rewrite re_search_eq.
  change (fence ++ snd b ++ fence ++ rest) with (fence ++ (snd b ++ fence ++ rest)).
  replace (fence ++ (snd b ++ fence ++ rest)) with (fenced (snd b) ++ rest)
    by (unfold fenced; rewrite <- !app_assoc; reflexivity).
  rewrite (match_here_fenced _ _ Hb). simpl. rewrite Nat.add_0_r. reflexivity.
Qed.

(** An opening fence with no fence after it closes nothing. *)
Lemma re_search_unclosed (t r : str) :
  occurs fence (t ++ backticks2) = false ->
  occurs fence r = false ->
  re_search (t ++ fence ++ r) = None.
Proof.
  intros Ht Hr. rewrite (re_search_after_text _ _ Ht).
  rewrite (re_search_none (fence ++ r)); [reflexivity | exact Hr].
Qed.

Lemma re_split_block (b : block) (rest : str) :
  block_ok b ->
  re_split (block_str b ++ rest) = fst b :: fenced (snd b) :: re_split rest.
Proof.
  intros Hb. rewrite (re_split_match _ _ _ (re_search_block _ rest Hb)).
  assert (L : length (fenced (snd b)) = 3 + length (snd b) + 3).
  { unfold fenced. rewrite !length_app. simpl. lia. }
  unfold block_str. rewrite <- app_assoc.
  rewrite (Nat.add_comm (length (fst b))), <- skipn_skipn.
  rewrite firstn_length_app, skipn_length_app.
  rewrite <- L, firstn_length_app, skipn_length_app. reflexivity.
Qed.

Lemma spans_shift2 (i : nat) (l : list str) :
  map (fun p => span_of (fst p) (snd p)) (enumerate_from (S (S i)) l) =
  map (fun p => span_of (fst p) (snd p)) (enumerate_from i l).
Proof.
  revert i; induction l as [|x l IH]; intros i; simpl; [reflexivity|].
  rewrite IH. f_equal. unfold span_of.
  rewrite !mod2_eqb_odd, Nat.odd_succ_succ. reflexivity.
Qed.

Lemma split_md_blocks_plain (s : str) :
  re_search s = None -> split_md_blocks s = [(text, s)].
Proof.
  intros H. rewrite split_md_blocks_unfold, (re_split_no_match _ H). reflexivity.
Qed.

Lemma split_md_blocks_block (b : block) (rest : str) :
  block_ok b ->
  split_md_blocks (block_str b ++ rest) = block_spans b ++ split_md_blocks rest.
Proof.
  intros Hb. rewrite !split_md_blocks_unfold, (re_split_block _ rest Hb).
  unfold enumerate. simpl. rewrite spans_shift2. reflexivity.
Qed.

Lemma document_cons (b : block) (bs : list block) (tail : str) :
  document (b :: bs) tail = block_str b ++ document bs tail.
Proof. unfold document. simpl. apply eq_sym, app_assoc. Qed.

Lemma split_md_blocks_document (bs : list block) (tail : str) :
  Forall block_ok bs ->
  split_md_blocks (document bs tail) =
  flat_map block_spans bs ++ split_md_blocks tail.
Proof.
  induction 1 as [|b bs Hb _ IH]; [reflexivity|].
  rewrite document_cons, (split_md_blocks_block _ _ Hb), IH.
  simpl. reflexivity.
Qed.

(** C10: [split_md_blocks] yields an odd number of spans; the span at an
    even index is a text span and the span at an odd index a code span;
    so the first and the last span are text spans (possibly empty). *)
Theorem split_md_blocks_alternates (txt : str) :
  Nat.odd (length (split_md_blocks txt)) = true /\
  (forall i sp, nth_error (split_md_blocks txt) i = Some sp ->
                fst sp = if Nat.even i then text else code) /\
  (exists part rest, split_md_blocks txt = (text, part) :: rest) /\
  (exists init part, split_md_blocks txt = init ++ [(text, part)]).
Proof.
  assert (Hodd : Nat.odd (length (re_split txt)) = true)
    by apply re_split_fuel_odd.
  repeat split.
  - rewrite split_md_blocks_length. exact Hodd.
  - intros i sp. rewrite split_md_blocks_nth.
    destruct (nth_error (re_split txt) i) as [part|]; simpl; [|discriminate].
    intros H; injection H as <-. apply span_of_fst.
  - rewrite split_md_blocks_unfold.
    destruct (re_split txt) as [|part l]; [discriminate|].
    exists part. eexists. reflexivity.
  - rewrite split_md_blocks_unfold.
    destruct (exists_last (l := re_split txt)) as (init & part & E).
    { intros E; rewrite E in Hodd; discriminate. }
    rewrite E in *. unfold enumerate. rewrite enumerate_from_app, map_app.
    eexists. exists part. f_equal. simpl. f_equal.
    rewrite length_app, Nat.add_comm in Hodd. simpl in Hodd.
    rewrite Nat.odd_succ in Hodd.
    pose proof (span_of_fst (length init) part) as F.
    rewrite Hodd in F. rewrite (surjective_pairing (span_of _ _)), F, span_of_snd.
    reflexivity.
Qed.

(** C2, as the code has it: an opening fence that nothing closes opens no
    span.  In a document of closed blocks followed by a text [t], an
    opening fence and a rest [r] with no fence in it, the spans are those
    of the closed blocks and then one text span with [t], the fence and
    [r]. *)
Theorem split_md_blocks_unclosed_fence (bs : list block) (t r : str) :
  Forall block_ok bs ->
  occurs fence (t ++ backticks2) = false ->
  occurs fence r = false ->
  split_md_blocks (document bs (t ++ fence ++ r)) =
  flat_map block_spans bs ++ [(text, t ++ fence ++ r)].
Proof.
  intros Hbs Ht Hr.
  rewrite (split_md_blocks_document _ _ Hbs).
  rewrite (split_md_blocks_plain _ (re_search_unclosed _ _ Ht Hr)).
  reflexivity.
Qed.

Lemma split_md_blocks_unclosed_fence_witness :
  split_md_blocks (u "x```y```z```w") =
  [(text, u "x"); (code, u "```y```"); (text, u "z```w")].
Proof.
  apply (split_md_blocks_unclosed_fence [(u "x", u "y")] (u "z") (u "w")).
  - repeat constructor.
  - reflexivity.
  - reflexivity.
Defined.

(** C2, as the claim words it, fails: the text from the unclosed fence on
    is no span of its own and no code span. *)
Lemma unclosed_fence_is_no_code_span :
  split_md_blocks (u "a```b") = [(text, u "a```b")] /\
  ~ (exists init, split_md_blocks (u "a```b") = init ++ [(code, u "```b")]).
Proof.
  split; [reflexivity|].
  intros [init H].
  change (split_md_blocks (u "a```b")) with [(text, u "a```b")] in H.
  destruct init as [|x [|y init]]; discriminate.
Qed.

(* ================================================================== *)
(** ** The dispatcher and the Markdown reassembler *)
(* ================================================================== *)

(** C8: a text that is empty or all whitespace is returned as it is;
    the environment is the one given (no backend was called, the call
    log has not grown), whatever [bilingual] is. *)
Theorem translate_text_block_whitespace
        (rt : runtime) (txt : str) (g : glossary) (bilingual : bool) (e : env rt) :
  forallb py_isspace txt = true ->
  translate_text_block rt txt g bilingual e = (txt, e).
Proof.
  intros H. unfold translate_text_block.
  rewrite truthy_strip, H. reflexivity.
Qed.

(** C9: for a text with a character that is no whitespace, bilingual
    mode returns the translated text, two newlines, the label
    [[English]], a newline and the original text; without bilingual
    mode the translated text is returned as it is. *)
Theorem translate_text_block_bilingual
        (rt : runtime) (txt : str) (g : glossary) (e : env rt) :
  forallb py_isspace txt = false ->
  translate_text_block rt txt g true e =
    (fst (translated rt txt g e) ++ [10; 10]%N ++ u "[English]" ++ [10]%N ++ txt,
     snd (translated rt txt g e)) /\
  translate_text_block rt txt g false e = translated rt txt g e.
Proof.
  intros H. unfold translate_text_block.
  rewrite truthy_strip, H. simpl negb.
  destruct (translated rt txt g e) as [ja e']. split; reflexivity.
Qed.

(** C6: when the selected network backend raises on a text that is not
    all whitespace, [translate_text_block] returns what the pattern
    translator gives for the same text (composed bilingually if asked
    for); nothing is raised, and the backend has been called once. *)
Theorem translate_text_block_fallback
        (rt : runtime) (bk : backend) (txt : str) (g : glossary) (bilingual : bool)
        (e : env rt) (x : exception) (w' : World rt) :
  forallb py_isspace txt = false ->
  selected_backend rt = Some bk ->
  remote rt bk txt (world e) = (Raise x, w') ->
  translate_text_block rt txt g bilingual e =
    ((if bilingual
      then rule_based_translate rt txt g ++ bilingual_separator ++ txt
      else rule_based_translate rt txt g),
     Env w' (calls e ++ [(bk, txt)])).
Proof.
  intros H Hsel Hraise. unfold translate_text_block.
  rewrite truthy_strip, H. simpl negb.
  unfold translated, select_backend, selected_backend in *.
  destruct (USE_OPENAI rt).
  - injection Hsel as <-. simpl in Hraise.
    unfold openai_translate. rewrite Hraise.
    destruct bilingual; reflexivity.
  - destruct (USE_DEEPL rt); [|discriminate].
    injection Hsel as <-. simpl in Hraise.
    unfold deepl_translate. rewrite Hraise.
    destruct bilingual; reflexivity.
Qed.

(** *** translate_markdown_like *)

Lemma translate_spans_length
      (rt : runtime) (spans : list span) (g : glossary) (b : bool) (e : env rt) :
  length (fst (translate_spans rt spans g b e)) = length spans.
Proof.
  revert e; induction spans as [|[k part] spans IH]; intros e; simpl.
  - reflexivity.
  - destruct k.
    + specialize (IH e). destruct (translate_spans rt spans g b e). simpl in *. congruence.
    + destruct (translate_text_block rt part g b e) as [piece e1].
      specialize (IH e1). destruct (translate_spans rt spans g b e1). simpl in *. congruence.
Qed.

Lemma translate_spans_code
      (rt : runtime) (spans : list span) (g : glossary) (b : bool) (e : env rt)
      (i : nat) (part : str) :
  nth_error spans i = Some (code, part) ->
  nth_error (fst (translate_spans rt spans g b e)) i = Some part.
Proof.
  revert e i; induction spans as [|[k p] spans IH]; intros e [|i] H;
    try discriminate.
  - simpl in H. injection H as -> ->. simpl.
    destruct (translate_spans rt spans g b e). reflexivity.
  - simpl in H. simpl. destruct k.
    + specialize (IH e i H). destruct (translate_spans rt spans g b e). exact IH.
    + destruct (translate_text_block rt p g b e) as [piece e1].
      specialize (IH e1 i H). destruct (translate_spans rt spans g b e1). exact IH.
Qed.

Lemma translate_spans_text
      (rt : runtime) (spans : list span) (g : glossary) (b : bool) (e : env rt)
      (i : nat) (part : str) :
  nth_error spans i = Some (text, part) ->
  exists e', nth_error (fst (translate_spans rt spans g b e)) i =
             Some (fst (translate_text_block rt part g b e')).
Proof.
  revert e i; induction spans as [|[k p] spans IH]; intros e [|i] H;
    try discriminate.
  - simpl in H. injection H as -> ->. exists e. simpl.
    destruct (translate_text_block rt part g b e) as [piece e1].
    destruct (translate_spans rt spans g b e1). reflexivity.
  - simpl in H. simpl. destruct k.
    + destruct (IH e i H) as [e' IH']. exists e'.
      destruct (translate_spans rt spans g b e). exact IH'.
    + destruct (translate_text_block rt p g b e) as [piece e1].
      destruct (IH e1 i H) as [e' IH']. exists e'.
      destruct (translate_spans rt spans g b e1). exact IH'.
Qed.

Lemma translate_markdown_like_concat
      (rt : runtime) (txt : str) (g : glossary) (b : bool) (e : env rt) :
  fst (translate_markdown_like rt txt g b e) = concat (fst (translate_spans rt (split_md_blocks txt) g b e)).
Proof.
  unfold translate_markdown_like.
  destruct (translate_spans rt (split_md_blocks txt) g b e). reflexivity.
Qed.

Lemma translate_markdown_like_block
      (rt : runtime) (blk : block) (rest : str) (g : glossary) (b : bool) (e : env rt) :
  block_ok blk ->
  fst (translate_markdown_like rt (block_str blk ++ rest) g b e) =
  fst (translate_text_block rt (fst blk) g b e) ++ fenced (snd blk)
      ++ fst (translate_markdown_like rt rest g b (snd (translate_text_block rt (fst blk) g b e))).
Proof.
  intros Hb. rewrite !translate_markdown_like_concat.
  rewrite (split_md_blocks_block _ _ Hb). simpl.
  destruct (translate_text_block rt (fst blk) g b e) as [piece e1]. simpl.
  destruct (translate_spans rt (split_md_blocks rest) g b e1). reflexivity.
Qed.

(** C3: the pieces [translate_markdown_like] joins are as many as the
    spans of the document; the piece of a code span is the span itself,
    the piece of a text span is what [translate_text_block] returns for
    it; so whatever the backends do, a closed fenced block, fences
    included, stands in the output as it stood in the input. *)
Theorem translate_markdown_like_keeps_code
        (rt : runtime) (txt : str) (g : glossary) (b : bool) (e : env rt) :
  fst (translate_markdown_like rt txt g b e) = concat (fst (translate_spans rt (split_md_blocks txt) g b e)) /\
  length (fst (translate_spans rt (split_md_blocks txt) g b e)) =
    length (split_md_blocks txt) /\
  (forall i part,
      nth_error (split_md_blocks txt) i = Some (code, part) ->
      nth_error (fst (translate_spans rt (split_md_blocks txt) g b e)) i = Some part) /\
  (forall i part,
      nth_error (split_md_blocks txt) i = Some (text, part) ->
      exists e',
        nth_error (fst (translate_spans rt (split_md_blocks txt) g b e)) i =
        Some (fst (translate_text_block rt part g b e'))) /\
  (forall blk rest,
      txt = block_str blk ++ rest ->
      block_ok blk ->
      fst (translate_markdown_like rt txt g b e) =
      fst (translate_text_block rt (fst blk) g b e) ++ fenced (snd blk)
          ++ fst (translate_markdown_like rt rest g b (snd (translate_text_block rt (fst blk) g b e)))).
Proof.
  split; [apply translate_markdown_like_concat|].
  split; [apply translate_spans_length|].
  split; [intros i part; apply translate_spans_code|].
  split; [intros i part; apply translate_spans_text|].
  intros blk rest -> Hb. apply translate_markdown_like_block, Hb.
Qed.

Lemma translate_spans_identity
      (rt : runtime) (spans : list span) (g : glossary) (b : bool) :
  (forall part e, In (text, part) spans -> fst (translate_text_block rt part g b e) = part) ->
  forall e, fst (translate_spans rt spans g b e) = map snd spans.
Proof.
  induction spans as [|[k part] spans IH]; intros H e; simpl; [reflexivity|].
  assert (H' : forall p e0, In (text, p) spans -> fst (translate_text_block rt p g b e0) = p)
    by (intros p e0 Hin; apply H; right; exact Hin).
  destruct k.
  - specialize (IH H' e). destruct (translate_spans rt spans g b e).
    simpl in *. congruence.
  - pose proof (H part e (or_introl eq_refl)) as Hp.
    destruct (translate_text_block rt part g b e) as [piece e1]. simpl in Hp. subst piece.
    specialize (IH H' e1). destruct (translate_spans rt spans g b e1).
    simpl in *. congruence.
Qed.

(** C4: the contents of the spans of [split_md_blocks], joined in
    order, are the text itself, for every text; so when
    [translate_text_block] gives every text span back as it is,
    [translate_markdown_like] returns its input. *)
Theorem split_md_blocks_roundtrip (rt : runtime) (txt : str) :
  concat (map snd (split_md_blocks txt)) = txt /\
  forall g b,
    (forall part e, In (text, part) (split_md_blocks txt) ->
                    fst (translate_text_block rt part g b e) = part) ->
    forall e, fst (translate_markdown_like rt txt g b e) = txt.
Proof.
  assert (R : concat (map snd (split_md_blocks txt)) = txt).
  { rewrite split_md_blocks_contents. apply re_split_fuel_concat. }
  split; [exact R|].
  intros g b H e. rewrite translate_markdown_like_concat.
  rewrite (translate_spans_identity rt _ g b H e). exact R.
Qed.


(* ================================================================== *)
(** ** The JSON walker *)
(* ================================================================== *)

Lemma nodup_keys_cons (k : str) (ks : list str) :
  nodup_keys (k :: ks) = true -> ~ In k ks /\ nodup_keys ks = true.
Proof.
  simpl. rewrite andb_true_iff, negb_true_iff. intros [H1 H2]. split; [|exact H2].
  intros Hin. assert (E : existsb (str_eqb k) ks = true); [|congruence].
  apply existsb_exists. exists k. split; [exact Hin | apply str_eqb_refl].
Qed.

Lemma dict_set_fresh (V : Type) (d : dict str V) (k : str) (v : V) :
  ~ In k (map fst d) -> dict_set str_eqb d k v = d ++ [(k, v)].
Proof.
  induction d as [|[k' v'] d IH]; simpl; intros H; [reflexivity|].
  destruct (str_eqb k' k) eqn:E.
  - apply str_eqb_eq in E. tauto.
  - rewrite IH by tauto. reflexivity.
Qed.

Lemma dict_get_set (V : Type) (d : dict str V) (k : str) (v : V) :
  dict_get str_eqb (dict_set str_eqb d k v) k = Some v.
Proof.
  induction d as [|[k' v'] d IH]; simpl.
  - rewrite str_eqb_refl. reflexivity.
  - destruct (str_eqb k' k) eqn:E; simpl; rewrite E; [reflexivity | exact IH].
Qed.

Section WalkerProperties.

Variable rt : runtime.
Variable g : glossary.
Variable bilingual : bool.

Lemma walked_entry_key (kv kv' : str * json) :
  walked_entry rt g bilingual kv kv' -> fst kv' = fst kv.
Proof. destruct 1; reflexivity. Qed.

(** The same keys in the same order. *)
Lemma walked_dict_keys (d : list (str * json)) (j' : json) :
  walked rt g bilingual (JDict d) j' ->
  exists d', j' = JDict d' /\ map fst d' = map fst d.
Proof.
  intros H. inversion H as [| | | | | |d0 d' F]; subst.
  exists d'. split; [reflexivity|]. clear H.
  induction F as [|kv kv' d0 d' E _ IH]; simpl; [reflexivity|].
  rewrite (walked_entry_key _ _ E), IH. reflexivity.
Qed.

(** The same number of elements. *)
Lemma walked_list_length (l : list json) (j' : json) :
  walked rt g bilingual (JList l) j' ->
  exists l', j' = JList l' /\ length l' = length l.
Proof.
  intros H. inversion H as [| | | | |l0 l' F|]; subst.
  exists l'. split; [reflexivity|].
  apply eq_sym, (Forall2_length F).
Qed.

(** A scalar is returned as it is. *)
Lemma walked_scalar (j j' : json) :
  walked rt g bilingual j j' ->
  (forall l, j <> JList l) -> (forall d, j <> JDict d) -> j' = j.
Proof.
  intros H Hl Hd. destruct H; try reflexivity.
  - destruct (Hl l eq_refl).
  - destruct (Hd d eq_refl).
Qed.

Variable walk : json -> env rt -> json * env rt.

Lemma walk_items_spec (d : list (str * json)) :
  Forall (fun kv => forall e,
              walked rt g bilingual (snd kv) (fst (walk (snd kv) e))) d ->
  forall new e,
    nodup_keys (map fst d) = true ->
    (forall k, In k (map fst d) -> ~ In k (map fst new)) ->
    exists d', fst (walk_items rt walk g bilingual d new e) = new ++ d' /\
               Forall2 (walked_entry rt g bilingual) d d'.
Proof.
  induction 1 as [|[k v] d Hv _ IH]; intros new e Hnd Hfresh.
  - exists []. simpl. rewrite app_nil_r. split; [reflexivity | constructor].
  - apply nodup_keys_cons in Hnd. destruct Hnd as [Hk Hnd].
    assert (Hstep : exists v' e',
               (match v with
                | JStr s =>
                  if str_eqb k key_description
                  then let '(t, e1) := translate_text_block rt s g bilingual e in
                       (JStr t, e1)
                  else walk v e
                | _ => walk v e
                end) = (v', e') /\
               walked_entry rt g bilingual (k, v) (k, v')).
    { assert (Hother : ~ is_description (k, v) ->
                       exists v' e', walk v e = (v', e') /\
                                     walked_entry rt g bilingual (k, v) (k, v')).
      { intros N. exists (fst (walk v e)), (snd (walk v e)).
        split; [apply surjective_pairing|].
        apply entry_other; [exact N | apply (Hv e)]. }
      destruct v as [| | | |s| |];
        try (apply Hother; intros [_ [s0 E]]; discriminate).
      destruct (str_eqb k key_description) eqn:E.
      - apply str_eqb_eq in E. subst k.
        exists (JStr (fst (translate_text_block rt s g bilingual e))),
               (snd (translate_text_block rt s g bilingual e)).
        split; [|apply entry_description].
        destruct (translate_text_block rt s g bilingual e); reflexivity.
      - apply Hother. intros [E' _]. simpl in E'.
        apply str_eqb_neq in E. tauto. }
    destruct Hstep as (v' & e' & Hstep & Hentry).
    simpl. rewrite Hstep.
    rewrite dict_set_fresh by (apply Hfresh; left; reflexivity).
    destruct (IH (new ++ [(k, v')]) e' Hnd) as (d' & Hd' & F).
    { intros k0 Hin. rewrite map_app, in_app_iff. simpl.
      intros [Hn | [<- | []]].
      - apply (Hfresh k0); [right; exact Hin | exact Hn].
      - tauto. }
    exists ((k, v') :: d'). rewrite Hd', <- app_assoc. split; [reflexivity|].
    constructor; assumption.
Qed.

Lemma walk_elems_spec (l : list json) :
  Forall (fun x => forall e, walked rt g bilingual x (fst (walk x e))) l ->
  forall e, Forall2 (walked rt g bilingual) l (fst (walk_elems rt walk l e)).
Proof.
  induction 1 as [|x l Hx _ IH]; intros e; simpl; [constructor|].
  specialize (Hx e). destruct (walk x e) as [x' e1].
  specialize (IH e1). destruct (walk_elems rt walk l e1) as [r e2].
  constructor; assumption.
Qed.

End WalkerProperties.

(** C5: for a tree whose mappings have pairwise different keys (as every
    Python dict has), [translate_json_descriptions] returns a tree with
    the same keys in the same order in every mapping, the same length and
    order in every sequence and the same scalars, but for the strings
    that are the value of the key ["description"], each replaced by what
    [translate_text_block] returns for it. *)
Theorem translate_json_descriptions_shape
        (rt : runtime) (g : glossary) (bilingual : bool) (obj : json) :
  unique_keys obj = true ->
  forall e, walked rt g bilingual obj
                   (fst (translate_json_descriptions rt obj g bilingual e)).
Proof.
  induction obj as [| | | | |l IH|d IH] using json_induction;
    intros U e; try (simpl; constructor).
  - simpl in U.
    assert (F : Forall (fun x => forall e,
                            walked rt g bilingual x
                                   (fst (translate_json_descriptions
                                           rt x g bilingual e))) l).
    { rewrite forallb_forall in U. rewrite Forall_forall in *.
      intros x Hin e0. apply IH; [exact Hin | apply U, Hin]. }
    pose proof (walk_elems_spec rt g bilingual
                  (fun x e => translate_json_descriptions rt x g bilingual e)
                  l F e) as W.
    simpl. destruct (walk_elems rt _ l e) as [l' e']. constructor. exact W.
  - simpl in U. apply andb_true_iff in U. destruct U as [Hnd U].
    assert (F : Forall (fun kv => forall e,
                            walked rt g bilingual (snd kv)
                                   (fst (translate_json_descriptions
                                           rt (snd kv) g bilingual e))) d).
    { rewrite forallb_forall in U. rewrite Forall_forall in *.
      intros [k v] Hin e0. apply (IH (k, v) Hin). apply (U (k, v) Hin). }
    destruct (walk_items_spec rt g bilingual
                (fun x e => translate_json_descriptions rt x g bilingual e)
                d F [] e Hnd) as (d' & Hd' & F2).
    { intros k _ []. }
    simpl. simpl in Hd'.
    destruct (walk_items rt _ g bilingual d [] e) as [new e'].
    simpl in Hd'. subst new.
    constructor. exact F2.
Qed.

Lemma translate_json_descriptions_shape_witness :
  walked Sample.offline [] false
         (JDict [(u "description", JStr (u "Creates files"));
                 (u "title", JStr (u "Creates files"))])
         (JDict [(u "description", JStr (u "作成します ファイル"));
                 (u "title", JStr (u "Creates files"))]).
Proof.
  exact (translate_json_descriptions_shape
           Sample.offline [] false
           (JDict [(u "description", JStr (u "Creates files"));
                   (u "title", JStr (u "Creates files"))])
           eq_refl (Sample.start Sample.offline 0)).
Defined.

(* ================================================================== *)
(** ** The glossary loader *)
(* ================================================================== *)

(** A path that does not exist gives the empty glossary. *)
Lemma load_glossary_absent : load_glossary None = Ok [].
Proof. reflexivity. Qed.

(** A row with both columns read as fields: the stripped pair is stored
    when neither is empty, and the row is passed over otherwise. *)
Lemma glossary_row_fields (d : glossary) (r : Csv.row) (a b : str) :
  Csv.get r col_en = Csv.Field a ->
  Csv.get r col_ja = Csv.Field b ->
  glossary_row d r =
  Ok (if truthy (strip a) && truthy (strip b)
      then dict_set str_eqb d (strip a) (strip b)
      else d).
Proof. intros Ha Hb. unfold glossary_row. rewrite Ha, Hb. reflexivity. Qed.

Lemma glossary_rows_app (d : glossary) (rs1 rs2 : list Csv.row) :
  glossary_rows d (rs1 ++ rs2) =
  match glossary_rows d rs1 with
  | Ok d' => glossary_rows d' rs2
  | Raise e => Raise e
  end.
Proof.
  revert d; induction rs1 as [|r rs1 IH]; intros d; simpl; [reflexivity|].
  destruct (glossary_row d r); [apply IH | reflexivity].
Qed.

(** The last row for a source term decides its target term. *)
Lemma glossary_last_row_wins
      (d d' : glossary) (rs : list Csv.row) (r : Csv.row) (a b : str) :
  glossary_rows d rs = Ok d' ->
  Csv.get r col_en = Csv.Field a ->
  Csv.get r col_ja = Csv.Field b ->
  truthy (strip a) = true ->
  truthy (strip b) = true ->
  exists d'', glossary_rows d (rs ++ [r]) = Ok d'' /\
              dict_get str_eqb d'' (strip a) = Some (strip b).
Proof.
  intros Hrs Ha Hb Ta Tb.
  rewrite glossary_rows_app, Hrs. simpl.
  rewrite (glossary_row_fields _ _ _ _ Ha Hb), Ta, Tb. simpl.
  eexists. split; [reflexivity | apply dict_get_set].
Qed.

(** A row with a column missing from the header is passed over. *)
Lemma glossary_row_no_column (d : glossary) (r : Csv.row) :
  dict_get Csv.key_eqb r (Some col_en) = None ->
  (exists c, Csv.cell_strip (Csv.get r col_ja) = Ok c) ->
  glossary_row d r = Ok d.
Proof.
  intros H [c Hc]. unfold glossary_row, Csv.get at 1. rewrite H. simpl.
  rewrite Hc. reflexivity.
Qed.

(** C7, where the code leaves the claim: a record with fewer fields than
    the header.  The file is
<<
en,ja
Search
>>
    [csv.DictReader] fills the missing [ja] with [None], [row.get("ja", "")]
    returns that [None] (the key is there), and [None.strip()] raises
    [AttributeError]: the row is not passed over, the load fails. *)
Theorem load_glossary_short_row_raises :
  load_glossary (Some [[u "en"; u "ja"]; [u "Search"]]) = Raise AttributeError.
Proof. reflexivity. Qed.

(** So does every file with the header [en,ja] whose first row has one
    field, whatever that field and the rows after it. *)
Lemma load_glossary_short_first_row (x : str) (rs : Csv.records) :
  load_glossary (Some ([u "en"; u "ja"] :: [x] :: rs)) = Raise AttributeError.
Proof. reflexivity. Qed.

(** A row whose [ja] was filled with [None] raises, whatever its [en]. *)
Lemma glossary_row_short (d : glossary) (r : Csv.row) (a : str) :
  Csv.get r col_en = Csv.Field a ->
  Csv.get r col_ja = Csv.NoneCell ->
  glossary_row d r = Raise AttributeError.
Proof. intros Ha Hb. unfold glossary_row. rewrite Ha, Hb. reflexivity. Qed.

(** The same file with the row complete loads. *)
Example load_glossary_full_row :
  load_glossary (Some [[u "en"; u "ja"]; [u "Search"; u "検索"]])
  = Ok [(u "Search", u "検索")].
Proof. reflexivity. Qed.

(** A short row after good rows loses them too. *)
Example load_glossary_short_row_later :
  load_glossary
    (Some [[u "en"; u "ja"]; [u "Search"; u "検索"]; []; [u "Open"]])
  = Raise AttributeError.
Proof. reflexivity. Qed.

(** Rows with a surplus field, blank rows, rows with an empty term and a
    repeated source term. *)
Example load_glossary_rows :
  load_glossary
    (Some [[u "en"; u "ja"];
           [u "Search"; u " X "; u "more"];
           [];
           [u "Open"; u "  "];
           [u ""; u "Y"];
           [u "Search"; u "Z"]])
  = Ok [(u "Search", u "Z")].
Proof. reflexivity. Qed.

(* ================================================================== *)
(** ** The pattern translator *)
(* ================================================================== *)

(** [s.replace(old, new)] leaves [new] where [old] stood. *)
Lemma replace_go_occurs (old new s : str) :
  old <> [] ->
  occurs old s = true ->
  occurs new (replace_go old new 0 s) = true.
Proof.
  intros Hold. induction s as [|c s IH]; intros H.
  - destruct old; [congruence | discriminate].
  - rewrite occurs_cons in H. simpl replace_go.
    destruct (starts_with old (c :: s)) eqn:E.
    + apply occurs_here.
    + simpl in H. rewrite occurs_cons, (IH H). apply orb_true_r.
Qed.

Lemma str_replace_occurs (s old new : str) :
  old <> [] ->
  occurs old s = true ->
  occurs new (str_replace s old new) = true.
Proof.
  intros Hold H. destruct old as [|o old]; [congruence|].
  apply replace_go_occurs; assumption.
Qed.

(** A match of [old] cannot run into a character that [old] does not
    have. *)
Lemma starts_with_stops (old x y : str) (j : codepoint) :
  ~ In j old ->
  starts_with old (x ++ j :: y) = true ->
  length old <= length x.
Proof.
  revert x; induction old as [|o old IH]; intros x Hj H; simpl; [lia|].
  destruct x as [|c x]; simpl in H.
  - apply andb_true_iff in H. destruct H as [H _].
    apply N.eqb_eq in H. subst o. simpl in Hj. tauto.
  - apply andb_true_iff in H. destruct H as [_ H].
    apply IH in H; [simpl; lia|]. simpl in Hj. tauto.
Qed.

Lemma replace_go_copies (old new ja b : str) :
  old <> [] ->
  (forall c, In c ja -> ~ In c old) ->
  replace_go old new 0 (ja ++ b) = ja ++ replace_go old new 0 b.
Proof.
  intros Hold. induction ja as [|j ja IH]; intros H; [reflexivity|].
  simpl. destruct old as [|o old]; [congruence|].
  assert (E : (o =? j)%N = false).
  { apply N.eqb_neq. intros ->. apply (H j); left; reflexivity. }
  simpl. rewrite E. simpl. f_equal. apply IH.
  intros c Hc. apply H. right. exact Hc.
Qed.

Lemma occurs_nil (s : str) : occurs [] s = true.
Proof. destruct s; reflexivity. Qed.

Lemma replace_go_scan (old new : str) (c : codepoint) (s : str) :
  replace_go old new 0 (c :: s) =
  if starts_with old (c :: s)
  then new ++ replace_go old new (length old - 1) s
  else c :: replace_go old new 0 s.
Proof. reflexivity. Qed.

Lemma replace_go_skip (old new : str) (k : nat) (c : codepoint) (s : str) :
  replace_go old new (S k) (c :: s) = replace_go old new k s.
Proof. reflexivity. Qed.

(** [s.replace(old, new)] keeps an occurrence of a text that shares no
    character with [old]. *)
Lemma replace_go_keeps (old new a ja b : str) :
  old <> [] ->
  (forall c, In c ja -> ~ In c old) ->
  forall skip, skip <= length a ->
  occurs ja (replace_go old new skip (a ++ ja ++ b)) = true.
Proof.
  intros Hold Hja.
  destruct ja as [|j ja]; [intros; apply occurs_nil|].
  induction a as [|c a IH]; intros skip Hskip.
  - simpl in Hskip. replace skip with 0 by lia.
    change ([] ++ (j :: ja) ++ b) with ((j :: ja) ++ b).
    rewrite (replace_go_copies _ _ _ _ Hold Hja). apply occurs_here.
  - rewrite <- app_comm_cons. destruct skip as [|k].
    + rewrite replace_go_scan.
      destruct (starts_with old (c :: a ++ (j :: ja) ++ b)) eqn:E.
      * apply occurs_app_r, IH.
        rewrite app_comm_cons in E.
        apply starts_with_stops in E; [simpl in E; lia|].
        apply Hja. left. reflexivity.
      * rewrite occurs_cons, IH by lia. apply orb_true_r.
    + rewrite replace_go_skip. apply IH. simpl in Hskip. lia.
Qed.

Lemma str_replace_keeps (s old new ja : str) :
  old <> [] ->
  (forall c, In c ja -> ~ In c old) ->
  occurs ja s = true ->
  occurs ja (str_replace s old new) = true.
Proof.
  intros Hold Hja H. destruct (occurs_split _ _ H) as (a & b & ->).
  destruct old as [|o old]; [congruence|].
  apply replace_go_keeps; [discriminate | exact Hja | lia].
Qed.

Lemma marker_free_spec (ja : str) :
  marker_free ja = true ->
  forall c, In c ja -> ~ In c (u " e.g.") /\ ~ In c (u " i.e.").
Proof.
  unfold marker_free. rewrite forallb_forall. intros H c Hc.
  specialize (H c Hc). apply negb_true_iff in H.
  assert (N : ~ In c (u " e.g." ++ u " i.e.")).
  { intros Hin. assert (E : existsb (N.eqb c) (u " e.g." ++ u " i.e.") = true);
      [|congruence].
    apply existsb_exists. exists c. split; [exact Hin | apply N.eqb_refl]. }
  rewrite in_app_iff in N. tauto.
Qed.

Lemma abbreviations_keep (ja s : str) :
  marker_free ja = true ->
  occurs ja s = true ->
  occurs ja (abbreviations s) = true.
Proof.
  intros M H. pose proof (marker_free_spec _ M) as F.
  unfold abbreviations.
  apply str_replace_keeps; [discriminate | intros c Hc; apply (F c Hc) |].
  apply str_replace_keeps; [discriminate | intros c Hc; apply (F c Hc) |].
  exact H.
Qed.

Lemma glossary_subst_app (g1 g2 : glossary) (s : str) :
  glossary_subst (g1 ++ g2) s = glossary_subst g2 (glossary_subst g1 s).
Proof. apply fold_left_app. Qed.

(** The pattern rules rewrite the word Search before the glossary is
    consulted. *)
Lemma pattern_rules_Search (rt : runtime) :
  pattern_rules rt (u "Search") = u "検索します".
Proof. vm_compute. reflexivity. Qed.

(** C1, as the code has it: the glossary is applied to the output of
    the pattern rules.  The text Search is rewritten by the second
    rule, so the output is that rule's replacement whatever target the
    glossary has for Search.  A glossary entry takes effect where its
    source term still stands once the pattern rules and the entries
    before it have run: the output then contains its target term (for
    the last entry, and a target without the characters of the two
    abbreviation markers). *)
Theorem glossary_after_pattern_rules (rt : runtime) :
  (forall ja,
      rule_based_translate rt (u "Search") [(u "Search", ja)]
      = u "検索します") /\
  (forall s g en ja,
      en <> [] ->
      marker_free ja = true ->
      occurs en (glossary_subst g (pattern_rules rt s)) = true ->
      occurs ja (rule_based_translate rt s (g ++ [(en, ja)])) = true).
Proof.
  split.
  - intros ja. unfold rule_based_translate.
    rewrite pattern_rules_Search. vm_compute. reflexivity.
  - intros s g en ja Hen M H. unfold rule_based_translate.
    apply (abbreviations_keep _ _ M).
    rewrite glossary_subst_app. simpl.
    apply str_replace_occurs; assumption.
Qed.

Lemma glossary_after_pattern_rules_witness :
  occurs (u "サーチ")
         (rule_based_translate Sample.offline (u "Searching")
                               [(u "Search", u "サーチ")]) = true.
Proof.
  apply (proj2 (glossary_after_pattern_rules Sample.offline)
               (u "Searching") [] (u "Search") (u "サーチ")).
  - discriminate.
  - reflexivity.
  - reflexivity.
Defined.

(** C1, as the claim words it, fails: the text is the word Search, the
    glossary maps Search to a term of its own, and the output is the
    replacement of the pattern rule, without the glossary's term. *)
Lemma glossary_does_not_override_pattern :
  occurs (u "Search") (u "Search") = true /\
  dict_get str_eqb [(u "Search", u "サーチ")] (u "Search") = Some (u "サーチ") /\
  rule_based_translate Sample.offline (u "Search") [(u "Search", u "サーチ")]
  = u "検索します" /\
  occurs (u "サーチ")
         (rule_based_translate Sample.offline (u "Search")
                               [(u "Search", u "サーチ")]) = false.
Proof. repeat split; vm_compute; reflexivity. Qed.

(** The rules and the glossary at work on a sentence. *)
Example rule_based_translate_sentence :
  rule_based_translate
    Sample.offline
    (u "Searching searches files, e.g. pull requests")
    [(u "Search", u "サーチ")]
  = u "サーチing 検索します ファイル, 例: プルリクエスト".
Proof. vm_compute. reflexivity. Qed.

(* ================================================================== *)
(** ** The claims at work on instances *)
(* ================================================================== *)

Lemma translate_text_block_whitespace_witness :
  translate_text_block Sample.deepl_echo [32; 9; 10; 12288]%N [] true
                       (Sample.start Sample.deepl_echo 0)
  = ([32; 9; 10; 12288]%N, Sample.start Sample.deepl_echo 0).
Proof.
  apply translate_text_block_whitespace. reflexivity.
Defined.

Lemma translate_text_block_bilingual_witness :
  translate_text_block Sample.offline (u "Opens files") [] true
                       (Sample.start Sample.offline 0)
  = (u "開きます ファイル" ++ [10; 10]%N ++ u "[English]" ++ [10]%N
       ++ u "Opens files",
     Sample.start Sample.offline 0) /\
  translate_text_block Sample.offline (u "Opens files") [] false
                       (Sample.start Sample.offline 0)
  = (u "開きます ファイル", Sample.start Sample.offline 0).
Proof.
  exact (translate_text_block_bilingual
           Sample.offline (u "Opens files") []
           (Sample.start Sample.offline 0) eq_refl).
Defined.

Lemma translate_text_block_fallback_witness :
  translate_text_block Sample.openai_down (u "Opens files") [] true
                       (Sample.start Sample.openai_down 0)
  = (u "開きます ファイル" ++ [10; 10]%N ++ u "[English]" ++ [10]%N
       ++ u "Opens files",
     Env (rt := Sample.openai_down) 1 [(OpenAI, u "Opens files")]).
Proof.
  exact (translate_text_block_fallback
           Sample.openai_down OpenAI (u "Opens files") [] true
           (Sample.start Sample.openai_down 0)
           (PyExc "ConnectionError") 1 eq_refl eq_refl eq_refl).
Defined.

Lemma translate_markdown_like_keeps_code_witness :
  fst (translate_markdown_like
         Sample.offline
         (u "Executes ```code with Execute``` files") [] false
         (Sample.start Sample.offline 0))
  = u "実行します " ++ u "```code with Execute```" ++ u " ファイル".
Proof.
  exact (proj2 (proj2 (proj2 (proj2
           (translate_markdown_like_keeps_code
              Sample.offline
              (u "Executes ```code with Execute``` files") [] false
              (Sample.start Sample.offline 0)))))
           (u "Executes ", u "code with Execute") (u " files")
           eq_refl (conj eq_refl eq_refl)).
Defined.

Lemma split_md_blocks_roundtrip_witness :
  fst (translate_markdown_like
         Sample.deepl_echo (u "Opens ```x``` files ```") [] false
         (Sample.start Sample.deepl_echo 0))
  = u "Opens ```x``` files ```".
Proof.
  apply (proj2 (split_md_blocks_roundtrip
                  Sample.deepl_echo (u "Opens ```x``` files ```")) [] false).
  intros part e _. unfold translate_text_block.
  destruct (negb (truthy (strip part))); reflexivity.
Defined.

(** The segmenter on the empty text, on fences alone and on a fence left
    open. *)
Example split_md_blocks_empty :
  split_md_blocks [] = [(text, [])].
Proof. reflexivity. Qed.

Example split_md_blocks_fences_only :
  split_md_blocks (u "```a``````b```")
  = [(text, []); (code, u "```a```"); (text, []); (code, u "```b```");
     (text, [])].
Proof. reflexivity. Qed.

Example split_md_blocks_four_backticks :
  split_md_blocks (u "a````x```b")
  = [(text, u "a"); (code, u "````x```"); (text, u "b")].
Proof. reflexivity. Qed.

(* ================================================================== *)
(** * Part IV: further properties *)
(* ================================================================== *)

(** ** More on whitespace *)

Lemma lstrip_head (s : str) :
  match lstrip s with
  | [] => True
  | c :: _ => py_isspace c = false
  end.
Proof.
  induction s as [|c s IH]; simpl; [exact I|].
  destruct (py_isspace c) eqn:E; [exact IH | exact E].
Qed.

Lemma lstrip_fixed (s : str) :
  match s with
  | [] => True
  | c :: _ => py_isspace c = false
  end ->
  lstrip s = s.
Proof. destruct s as [|c s]; simpl; [reflexivity|]. intros ->. reflexivity. Qed.

Lemma lstrip_lstrip (s : str) : lstrip (lstrip s) = lstrip s.
Proof. apply lstrip_fixed, lstrip_head. Qed.

(** [strip] gives a text with no whitespace at either end. *)
Lemma strip_strip (s : str) : strip (strip s) = strip s.
Proof.
  unfold strip, rstrip.
  set (y := lstrip s). set (w := rev y).
  assert (Hz : lstrip (rev (lstrip w)) = rev (lstrip w)).
  { apply lstrip_fixed.
    destruct (lstrip_suffix w) as (a & E & _).
    assert (Ey : y = rev (lstrip w) ++ rev a).
    { unfold w in E at 1. apply (f_equal (@rev codepoint)) in E.
      rewrite rev_involutive, rev_app_distr in E. exact E. }
    destruct (rev (lstrip w)) as [|c z]; [exact I|].
    pose proof (lstrip_head s) as Hh. fold y in Hh. rewrite Ey in Hh.
    exact Hh. }
  rewrite Hz, rev_involutive, lstrip_lstrip. reflexivity.
Qed.

(** ** More on dicts *)

Lemma dict_get_set_other (V : Type) (d : dict str V) (k k0 : str) (v : V) :
  k <> k0 ->
  dict_get str_eqb (dict_set str_eqb d k v) k0 = dict_get str_eqb d k0.
Proof.
  intros N. induction d as [|[k' v'] d IH]; simpl.
  - destruct (str_eqb k k0) eqn:E; [apply str_eqb_eq in E; tauto | reflexivity].
  - destruct (str_eqb k' k) eqn:E; simpl.
    + apply str_eqb_eq in E. subst k'.
      destruct (str_eqb k k0) eqn:E0; [apply str_eqb_eq in E0; tauto | reflexivity].
    + rewrite IH. reflexivity.
Qed.

Lemma dict_set_keys (V : Type) (d : dict str V) (k : str) (v : V) :
  map fst (dict_set str_eqb d k v) =
  if existsb (str_eqb k) (map fst d) then map fst d else map fst d ++ [k].
Proof.
  induction d as [|[k' v'] d IH]; simpl; [reflexivity|].
  destruct (str_eqb k' k) eqn:E.
  - apply str_eqb_eq in E. subst k'. rewrite str_eqb_refl. reflexivity.
  - assert (E' : str_eqb k k' = false).
    { apply str_eqb_neq. apply str_eqb_neq in E. congruence. }
    rewrite E'. simpl. rewrite IH.
    destruct (existsb (str_eqb k) (map fst d)); reflexivity.
Qed.

Lemma nodup_keys_snoc (ks : list str) (k : str) :
  nodup_keys ks = true ->
  existsb (str_eqb k) ks = false ->
  nodup_keys (ks ++ [k]) = true.
Proof.
  induction ks as [|k' ks IH]; simpl; intros H E; [reflexivity|].
  apply andb_true_iff in H. destruct H as [H1 H2].
  apply orb_false_iff in E. destruct E as [E1 E2].
  rewrite IH by assumption. rewrite andb_true_r.
  rewrite existsb_app. simpl. rewrite orb_false_r.
  apply negb_true_iff in H1. rewrite H1. simpl.
  assert (E' : str_eqb k' k = false).
  { apply str_eqb_neq. apply str_eqb_neq in E1. congruence. }
  rewrite E'. reflexivity.
Qed.

Lemma dict_set_nodup (V : Type) (d : dict str V) (k : str) (v : V) :
  nodup_keys (map fst d) = true ->
  nodup_keys (map fst (dict_set str_eqb d k v)) = true.
Proof.
  intros H. rewrite dict_set_keys.
  destruct (existsb (str_eqb k) (map fst d)) eqn:E; [exact H|].
  apply nodup_keys_snoc; assumption.
Qed.

Lemma dict_set_forallb (V : Type) (P : str * V -> bool)
      (d : dict str V) (k : str) (v : V) :
  forallb P d = true -> P (k, v) = true ->
  forallb P (dict_set str_eqb d k v) = true.
Proof.
  intros H Hk. induction d as [|[k' v'] d IH]; simpl in *.
  - rewrite Hk. reflexivity.
  - apply andb_true_iff in H. destruct H as [H1 H2].
    destruct (str_eqb k' k) eqn:E; simpl.
    + apply str_eqb_eq in E. subst k'. rewrite Hk, H2. reflexivity.
    + rewrite H1, (IH H2). reflexivity.
Qed.

(** ** More on the glossary loader *)

Lemma glossary_row_ok (d d' : glossary) (r : Csv.row) :
  glossary_row d r = Ok d' ->
  d' = match row_entry r with
       | Some (en, ja) => dict_set str_eqb d en ja
       | None => d
       end.
Proof.
  unfold glossary_row, row_entry.
  destruct (Csv.get r col_en) as [a| |l]; simpl; try discriminate.
  destruct (Csv.get r col_ja) as [b| |l]; simpl; try discriminate.
  intros H. injection H as <-.
  destruct (truthy (strip a) && truthy (strip b)); reflexivity.
Qed.

Lemma row_entry_ok (r : Csv.row) (p : str * str) :
  row_entry r = Some p -> entry_ok p = true.
Proof.
  unfold row_entry.
  destruct (Csv.get r col_en) as [a| |l]; try discriminate.
  destruct (Csv.get r col_ja) as [b| |l]; try discriminate.
  destruct (truthy (strip a) && truthy (strip b)) eqn:T; [|discriminate].
  intros H. injection H as <-. unfold entry_ok. simpl.
  rewrite T, !strip_strip, !str_eqb_refl. reflexivity.
Qed.

Lemma glossary_rows_invariant (rs : list Csv.row) (d d' : glossary) :
  glossary_rows d rs = Ok d' ->
  nodup_keys (map fst d) = true -> forallb entry_ok d = true ->
  nodup_keys (map fst d') = true /\ forallb entry_ok d' = true.
Proof.
  revert d; induction rs as [|r rs IH]; intros d H Hn Hf; simpl in H.
  - injection H as <-. split; assumption.
  - destruct (glossary_row d r) as [d1|x] eqn:R; [|discriminate].
    apply glossary_row_ok in R.
    apply (IH d1 H); subst d1;
      destruct (row_entry r) as [[en ja]|] eqn:E; try assumption.
    + apply dict_set_nodup, Hn.
    + apply dict_set_forallb; [exact Hf | apply (row_entry_ok _ _ E)].
Qed.

(** X1: a glossary that [load_glossary] returns has pairwise different
    source terms, and in every entry both terms are non-empty and free of
    whitespace at their ends. *)
Theorem load_glossary_entries (p : option Csv.records) (g : glossary) :
  load_glossary p = Ok g ->
  nodup_keys (map fst g) = true /\ forallb entry_ok g = true.
Proof.
  destruct p as [f|]; simpl; intros H.
  - apply (glossary_rows_invariant _ _ _ H); reflexivity.
  - injection H as <-. split; reflexivity.
Qed.

Lemma load_glossary_entries_witness :
  nodup_keys (map fst [(u "Search", u "Z"); (u "Open", u "開く")]) = true /\
  forallb entry_ok [(u "Search", u "Z"); (u "Open", u "開く")] = true.
Proof.
  apply (load_glossary_entries
           (Some [[u "en"; u "ja"];
                  [u " Search "; u "X"];
                  [u "Open"; u " 開く"];
                  [u "Search"; u "Z"]])).
  reflexivity.
Defined.












Lemma glossary_rows_lookup (rs : list Csv.row) (d d' : glossary) (k : str) :
  glossary_rows d rs = Ok d' ->
  dict_get str_eqb d' k =
  match last_target rs k with
  | Some ja => Some ja
  | None => dict_get str_eqb d k
  end.
Proof.
  revert d; induction rs as [|r rs IH]; intros d H; simpl in H.
  - injection H as <-. reflexivity.
  - destruct (glossary_row d r) as [d1|x] eqn:R; [|discriminate].
    apply glossary_row_ok in R. rewrite (IH d1 H). simpl.
    destruct (last_target rs k); [reflexivity|].
    subst d1. destruct (row_entry r) as [[en ja]|]; [|reflexivity].
    destruct (str_eqb en k) eqn:E.
    + apply str_eqb_eq in E. subst en. apply dict_get_set.
    + apply dict_get_set_other. apply str_eqb_neq, E.
Qed.

(** X3: in the glossary [load_glossary] returns, a source term has the
    target term of the last row that gives it one (a row with both terms
    non-empty once stripped), and a term no row gives is not there. *)
Theorem load_glossary_last_wins (f : Csv.records) (g : glossary) (k : str) :
  load_glossary (Some f) = Ok g ->
  dict_get str_eqb g k = last_target (Csv.DictReader f) k.
Proof.
  simpl. intros H. rewrite (glossary_rows_lookup _ _ _ k H).
  destruct (last_target (Csv.DictReader f) k); reflexivity.
Qed.

Lemma load_glossary_last_wins_witness :
  dict_get str_eqb [(u "Search", u "Z"); (u "Open", u "開く")] (u "Search")
  = Some (u "Z").
Proof.
  exact (load_glossary_last_wins
           [[u "en"; u "ja"];
            [u " Search "; u "X"];
            [u "Open"; u " 開く"];
            [u "Search"; u "Z"]]
           [(u "Search", u "Z"); (u "Open", u "開く")]
           (u "Search") eq_refl).
Defined.








(** ** More on the segmenter *)

Lemma lazy_close_spec (s : str) (k : nat) :
  lazy_close s = Some k ->
  (exists rest, s = firstn k s ++ fence ++ rest) /\
  occurs fence (firstn k s ++ backticks2) = false.
Proof.
  revert k; induction s as [|c s IH]; intros k; rewrite lazy_close_eq.
  - simpl. discriminate.
  - destruct (starts_with fence (c :: s)) eqn:F.
    + intros H. injection H as <-. split; [|reflexivity].
      exists (skipn 3 (c :: s)). apply (starts_with_split _ _ F).
    + destruct (lazy_close s) as [k'|]; simpl; [|discriminate].
      intros H. injection H as <-.
      destruct (IH k' eq_refl) as [[rest E] N]. split.
      * exists rest. simpl firstn. rewrite <- app_comm_cons. f_equal. exact E.
      * simpl firstn. rewrite <- app_comm_cons, occurs_cons, N, orb_false_r.
        rewrite E in F. rewrite app_comm_cons in F.
        change (fence ++ rest) with (backticks2 ++ (96%N :: rest)) in F.
        rewrite starts_with_fence_pad in F by discriminate.
        exact F.
Qed.

(** A match is an opening fence, a body and the first fence after it. *)
Lemma match_here_spec (s : str) (n : nat) :
  match_here s = Some n ->
  exists body, firstn n s = fenced body /\
               occurs fence (body ++ backticks2) = false.
Proof.
  unfold match_here. destruct (starts_with fence s) eqn:F; [|discriminate].
  destruct (lazy_close (skipn 3 s)) as [k|] eqn:L; simpl; [|discriminate].
  intros H. injection H as <-.
  destruct (lazy_close_spec _ _ L) as [[rest E] N].
  exists (firstn k (skipn 3 s)). split; [|exact N].
  apply starts_with_split in F. simpl length in F.
  assert (Lb : length (firstn k (skipn 3 s)) = k).
  { apply firstn_length_le. apply lazy_close_bound in L. lia. }
  revert E F Lb. generalize (firstn k (skipn 3 s)) as body.
  intros body E F Lb. rewrite E in F. rewrite F. unfold fenced.
  replace (fence ++ body ++ fence ++ rest)
    with ((fence ++ body ++ fence) ++ rest)
    by (rewrite <- !app_assoc; reflexivity).
  assert (X : forall m, m = length (fence ++ body ++ fence) ->
                        firstn m ((fence ++ body ++ fence) ++ rest)
                        = fence ++ body ++ fence)
    by (intros m ->; apply firstn_length_app).
  apply X. rewrite !length_app, Lb. simpl. lia.
Qed.

Lemma re_search_match (s : str) (i n : nat) :
  re_search s = Some (i, n) -> match_here (skipn i s) = Some n.
Proof.
  revert i; induction s as [|c s IH]; intros i; rewrite re_search_eq.
  - simpl. discriminate.
  - destruct (match_here (c :: s)) as [m|] eqn:M.
    + intros H. injection H as <- <-. exact M.
    + destruct (re_search s) as [[i' n']|]; simpl; [|discriminate].
      intros H. injection H as <- <-. apply IH. reflexivity.
Qed.

Lemma starts_with_mono (p a x : str) :
  starts_with p a = true -> starts_with p (a ++ x) = true.
Proof.
  revert a; induction p as [|c p IH]; intros [|d a]; simpl;
    try reflexivity; try discriminate.
  rewrite !andb_true_iff. intros [H1 H2]. split; [exact H1 | apply IH, H2].
Qed.

Lemma starts_with_long (p a x : str) :
  length p <= length a -> starts_with p (a ++ x) = starts_with p a.
Proof.
  revert a; induction p as [|c p IH]; intros [|d a]; simpl; intros L;
    try reflexivity; try lia.
  rewrite IH by lia. reflexivity.
Qed.

Lemma lazy_close_mono (a x : str) (k : nat) :
  lazy_close a = Some k -> lazy_close (a ++ x) = Some k.
Proof.
  revert k; induction a as [|c a IH]; intros k; rewrite lazy_close_eq.
  - simpl. discriminate.
  - rewrite (lazy_close_eq ((c :: a) ++ x)).
    destruct (starts_with fence (c :: a)) eqn:F.
    + intros H. rewrite (starts_with_mono _ _ x F). exact H.
    + destruct (lazy_close a) as [k'|] eqn:L; [|discriminate].
      intros H. simpl in H. injection H as <-.
      apply lazy_close_bound in L.
      rewrite starts_with_long by (simpl; lia).
      rewrite F, <- app_comm_cons, (IH k' eq_refl). reflexivity.
Qed.

Lemma match_here_mono (a x : str) (n : nat) :
  match_here a = Some n -> match_here (a ++ x) = Some n.
Proof.
  unfold match_here. destruct (starts_with fence a) eqn:F; [|discriminate].
  rewrite (starts_with_mono _ _ x F).
  destruct (lazy_close (skipn 3 a)) as [k|] eqn:L; [|discriminate].
  intros H. rewrite skipn_app.
  apply starts_with_length in F. simpl length in F.
  replace (3 - length a) with 0 by lia. change (skipn 0 x) with x.
  rewrite (lazy_close_mono _ x _ L). exact H.
Qed.

(** The match [re.search] finds is the leftmost: the text before it has
    none. *)
Lemma re_search_prefix (s : str) (i n : nat) :
  re_search s = Some (i, n) -> re_search (firstn i s) = None.
Proof.
  revert i; induction s as [|c s IH]; intros i; rewrite re_search_eq.
  - simpl. discriminate.
  - destruct (match_here (c :: s)) as [m|] eqn:M.
    + intros H. injection H as <- <-. reflexivity.
    + destruct (re_search s) as [[i' n']|] eqn:R; simpl; [|discriminate].
      intros H. injection H as <- <-.
      simpl firstn. rewrite re_search_eq, (IH i' eq_refl).
      destruct (match_here (c :: firstn i' s)) as [m|] eqn:M'; [|reflexivity].
      apply (match_here_mono _ (skipn i' s)) in M'.
      rewrite <- app_comm_cons, firstn_skipn in M'. congruence.
Qed.

Lemma re_split_fuel_code (fuel : nat) (s : str) (i : nat) (part : str) :
  nth_error (re_split_fuel fuel s) i = Some part ->
  Nat.odd i = true ->
  exists body, part = fenced body /\
               occurs fence (body ++ backticks2) = false.
Proof.
  revert s i; induction fuel as [|fuel IH]; intros s i H O; simpl in H.
  - destruct i as [|[|i]]; try discriminate.
  - destruct (re_search s) as [[j n]|] eqn:R.
    + destruct i as [|[|i]]; try discriminate.
      * simpl in H. injection H as <-.
        apply match_here_spec, (re_search_match _ _ _ R).
      * simpl in H. apply (IH _ i H). rewrite Nat.odd_succ_succ in O. exact O.
    + destruct i as [|[|i]]; try discriminate.
Qed.

Lemma re_split_fuel_text (fuel : nat) (s : str) (i : nat) (part : str) :
  length s <= fuel ->
  nth_error (re_split_fuel fuel s) i = Some part ->
  Nat.even i = true ->
  re_search part = None.
Proof.
  revert s i; induction fuel as [|fuel IH]; intros s i L H E; simpl in H.
  - destruct s; [|simpl in L; lia].
    destruct i as [|i]; [|destruct i; discriminate].
    injection H as <-. reflexivity.
  - destruct (re_search s) as [[j n]|] eqn:R.
    + destruct i as [|[|i]]; try discriminate.
      * simpl in H. injection H as <-. apply (re_search_prefix _ _ _ R).
      * simpl in H. apply (IH (skipn (j + n) s) i); [|exact H|].
        -- apply re_search_bound in R. rewrite length_skipn. lia.
        -- rewrite Nat.even_succ_succ in E. exact E.
    + destruct i as [|i]; [|destruct i; discriminate].
      injection H as <-. exact R.
Qed.

Lemma span_nth_kind (txt : str) (i : nat) (k : kind) (part : str) :
  nth_error (split_md_blocks txt) i = Some (k, part) ->
  nth_error (re_split txt) i = Some part /\
  k = if Nat.even i then text else code.
Proof.
  rewrite split_md_blocks_nth.
  destruct (nth_error (re_split txt) i) as [p|]; simpl; [|discriminate].
  intros H. injection H as H.
  pose proof (span_of_fst i p) as F. pose proof (span_of_snd i p) as S.
  rewrite H in F, S. simpl in F, S. subst. split; reflexivity.
Qed.

(** X5: every code span of [split_md_blocks] is an opening fence, a body
    and a closing fence, the closing fence being the first fence after
    the opening one; so a code span has six characters at least. *)
Theorem split_md_blocks_code_span (txt : str) (i : nat) (part : str) :
  nth_error (split_md_blocks txt) i = Some (code, part) ->
  exists body,
    part = fence ++ body ++ fence /\
    occurs fence (body ++ backticks2) = false /\
    6 <= length part.
Proof.
  intros H. apply span_nth_kind in H. destruct H as [H K].
  assert (O : Nat.odd i = true).
  { rewrite <- Nat.negb_even. destruct (Nat.even i); [discriminate | reflexivity]. }
  destruct (re_split_fuel_code _ _ _ _ H O) as (body & -> & N).
  exists body. repeat split; [exact N|].
  unfold fenced. rewrite !length_app. simpl. lia.
Qed.

Lemma split_md_blocks_code_span_witness :
  exists body,
    u "````x```" = fence ++ body ++ fence /\
    occurs fence (body ++ backticks2) = false /\
    6 <= length (u "````x```").
Proof.
  apply (split_md_blocks_code_span (u "a````x```b") 1). reflexivity.
Defined.

(** X6: no text span of [split_md_blocks] holds a closed fenced block:
    the pattern has no match in it. *)
Theorem split_md_blocks_text_span (txt : str) (i : nat) (part : str) :
  nth_error (split_md_blocks txt) i = Some (text, part) ->
  re_search part = None.
Proof.
  intros H. apply span_nth_kind in H. destruct H as [H K].
  assert (E : Nat.even i = true).
  { destruct (Nat.even i); [reflexivity | discriminate]. }
  apply (re_split_fuel_text (length txt) txt i part); auto.
Qed.

Lemma split_md_blocks_text_span_witness :
  re_search (u " z```w") = None.
Proof.
  apply (split_md_blocks_text_span (u "x```y``` z```w") 2). reflexivity.
Defined.

(** ** More on the pattern translator *)

Lemma ci_char_letter (p c : codepoint) :
  Re.ascii_upper p || Re.ascii_lower p = true ->
  Re.ci_char p c = true -> ci_letter c = true.
Proof.
  unfold Re.ci_char, ci_letter, Re.ascii_upper, Re.ascii_lower.
  intros Hp. rewrite Hp.
  destruct ((65 <=? p) && (p <=? 90))%N eqn:U.
  - apply andb_true_iff in U. destruct U as [U1 U2].
    apply N.leb_le in U1, U2.
    rewrite !orb_true_iff, !andb_true_iff, !N.eqb_eq, !N.leb_le.
    intros H. rewrite ?orb_true_iff, ?andb_true_iff, ?N.eqb_eq in H. lia.
  - simpl in Hp. apply andb_true_iff in Hp. destruct Hp as [L1 L2].
    apply N.leb_le in L1, L2.
    rewrite !orb_true_iff, !andb_true_iff, !N.eqb_eq, !N.leb_le.
    intros H. rewrite ?orb_true_iff, ?andb_true_iff, ?N.eqb_eq in H. lia.
Qed.

Lemma rule_match_letter_free (rt : runtime) (r : rule)
      (prev : option codepoint) (c : codepoint) (s : str) :
  letter_headed r = true -> ci_letter c = false ->
  rule_match rt r prev (c :: s) = None.
Proof.
  unfold letter_headed, rule_match. intros Hr Hc.
  destruct (stem r) as [|p st]; [discriminate|].
  simpl Re.ci_prefix.
  destruct (Re.ci_char p c) eqn:E; [|reflexivity].
  rewrite (ci_char_letter _ _ Hr E) in Hc. discriminate.
Qed.

Lemma sub_go_letter_free (rt : runtime) (r : rule)
      (prev : option codepoint) (s : str) :
  letter_headed r = true -> letter_free s = true ->
  sub_go rt r prev 0 s = s.
Proof.
  intros Hr. revert prev; induction s as [|c s IH]; intros prev H;
    [reflexivity|].
  simpl in H. apply andb_true_iff in H. destruct H as [Hc Hs].
  apply negb_true_iff in Hc.
  cbn [sub_go]. rewrite (rule_match_letter_free rt r prev c s Hr Hc).
  rewrite IH by exact Hs. reflexivity.
Qed.

Lemma reps_letter_headed : forallb letter_headed reps = true.
Proof. vm_compute. reflexivity. Qed.

Lemma pattern_rules_letter_free (rt : runtime) (s : str) :
  letter_free s = true -> pattern_rules rt s = s.
Proof.
  intros H. unfold pattern_rules.
  pose proof reps_letter_headed as R. revert R.
  induction reps as [|r rs IH]; intros R; simpl; [reflexivity|].
  simpl in R. apply andb_true_iff in R. destruct R as [R1 R2].
  unfold re_sub at 2. rewrite (sub_go_letter_free rt r None s R1 H).
  apply IH, R2.
Qed.

Lemma replace_go_absent (old new s : str) :
  occurs old s = false -> replace_go old new 0 s = s.
Proof.
  induction s as [|c s IH]; intros H; [reflexivity|].
  rewrite occurs_cons in H. apply orb_false_iff in H. destruct H as [H1 H2].
  rewrite replace_go_scan, H1, (IH H2). reflexivity.
Qed.

(** [s.replace(old, new)] is [s] when [old] does not occur in it. *)
Lemma str_replace_absent (s old new : str) :
  occurs old s = false -> str_replace s old new = s.
Proof.
  intros H. destruct old as [|o old].
  - rewrite occurs_nil in H. discriminate.
  - apply replace_go_absent, H.
Qed.

Lemma occurs_chars (p s : str) (c : codepoint) :
  occurs p s = true -> In c p -> In c s.
Proof.
  intros H Hc. destruct (occurs_split _ _ H) as (a & b & ->).
  apply in_or_app. right. apply in_or_app. left. exact Hc.
Qed.

Lemma letter_free_no_letter (s : str) (c : codepoint) :
  letter_free s = true -> ci_letter c = true -> ~ In c s.
Proof.
  unfold letter_free. rewrite forallb_forall. intros H Hc Hin.
  specialize (H c Hin). rewrite Hc in H. discriminate.
Qed.

Lemma abbreviations_letter_free (s : str) :
  letter_free s = true -> abbreviations s = s.
Proof.
  intros H. unfold abbreviations.
  assert (E : occurs (u " e.g.") s = false).
  { destruct (occurs (u " e.g.") s) eqn:O; [|reflexivity].
    exfalso. apply (letter_free_no_letter s 101%N H eq_refl).
    apply (occurs_chars _ _ _ O). right. left. reflexivity. }
  rewrite (str_replace_absent _ _ _ E).
  assert (E' : occurs (u " i.e.") s = false).
  { destruct (occurs (u " i.e.") s) eqn:O; [|reflexivity].
    exfalso. apply (letter_free_no_letter s 105%N H eq_refl).
    apply (occurs_chars _ _ _ O). right. left. reflexivity. }
  apply (str_replace_absent _ _ _ E').
Qed.

(** X7: a text with no letter of ASCII in it (and none of the four code
    points that fold to one: U+0130, U+0131, U+017F, U+212A) passes the
    pattern rules unchanged, whatever the Unicode table; with an empty
    glossary [rule_based_translate] returns it as it is. *)
Theorem rule_based_translate_letter_free (rt : runtime) (s : str) :
  letter_free s = true ->
  pattern_rules rt s = s /\ rule_based_translate rt s [] = s.
Proof.
  intros H. split; [apply pattern_rules_letter_free, H|].
  unfold rule_based_translate.
  rewrite (pattern_rules_letter_free rt s H). simpl glossary_subst.
  apply abbreviations_letter_free, H.
Qed.

Lemma rule_based_translate_letter_free_witness :
  pattern_rules Sample.offline (u "検索します 123 _-. ") = u "検索します 123 _-. " /\
  rule_based_translate Sample.offline (u "検索します 123 _-. ") []
  = u "検索します 123 _-. ".
Proof.
  apply rule_based_translate_letter_free. reflexivity.
Defined.

(** X8: glossary entries whose source term is not empty and does not
    occur in the text leave the text as it is; so [rule_based_translate]
    with such a glossary (none of its source terms occurs in the output
    of the pattern rules) gives what it gives with the empty glossary. *)
Theorem glossary_subst_absent (rt : runtime) (g : glossary) (s : str) :
  forallb (fun p => negb (occurs (fst p) (pattern_rules rt s))) g = true ->
  glossary_subst g (pattern_rules rt s) = pattern_rules rt s /\
  rule_based_translate rt s g = rule_based_translate rt s [].
Proof.
  intros H.
  assert (E : glossary_subst g (pattern_rules rt s) = pattern_rules rt s).
  { generalize dependent (pattern_rules rt s). intros t H.
    induction g as [|[en ja] g IH]; [reflexivity|].
    simpl in H. apply andb_true_iff in H. destruct H as [H1 H2].
    apply negb_true_iff in H1.
    unfold glossary_subst. simpl fold_left.
    rewrite (str_replace_absent _ _ _ H1). apply IH, H2. }
  split; [exact E|]. unfold rule_based_translate. rewrite E. reflexivity.
Qed.

Lemma glossary_subst_absent_witness :
  glossary_subst [(u "Search", u "サーチ"); (u "file", u "書類")]
                 (pattern_rules Sample.offline (u "Searches files"))
  = pattern_rules Sample.offline (u "Searches files") /\
  rule_based_translate Sample.offline (u "Searches files")
                       [(u "Search", u "サーチ"); (u "file", u "書類")]
  = rule_based_translate Sample.offline (u "Searches files") [].
Proof.
  apply glossary_subst_absent. vm_compute. reflexivity.
Defined.

Lemma sub_go_nil (rt : runtime) (r : rule) (prev : option codepoint) (k : nat) :
  sub_go rt r prev k [] = [].
Proof. reflexivity. Qed.

Lemma glossary_subst_nil (g : glossary) :
  forallb (fun p => truthy (fst p)) g = true -> glossary_subst g [] = [].
Proof.
  induction g as [|[en ja] g IH]; intros H; [reflexivity|].
  simpl in H. apply andb_true_iff in H. destruct H as [H1 H2].
  unfold glossary_subst. simpl fold_left.
  destruct en as [|c en]; [discriminate|]. simpl str_replace.
  apply IH, H2.
Qed.

Lemma pattern_rules_nil (rt : runtime) : pattern_rules rt [] = [].
Proof.
  unfold pattern_rules. induction reps as [|r rs IH]; [reflexivity|].
  simpl. exact IH.
Qed.

(** X9: with a glossary that has no empty source term,
    [rule_based_translate] turns the empty text into the empty text; an
    empty source term puts its target there (Python inserts the
    replacement of the empty string at every position). *)
Theorem rule_based_translate_empty (rt : runtime) :
  (forall g, forallb (fun p => truthy (fst p)) g = true ->
             rule_based_translate rt [] g = []) /\
  (forall ja, rule_based_translate rt [] [([], ja)] = abbreviations ja).
Proof.
  split.
  - intros g H. unfold rule_based_translate.
    rewrite pattern_rules_nil, (glossary_subst_nil g H). reflexivity.
  - intros ja. unfold rule_based_translate. rewrite pattern_rules_nil.
    simpl. rewrite app_nil_r. reflexivity.
Qed.

Lemma rule_based_translate_empty_witness :
  rule_based_translate Sample.offline [] [(u "Search", u "サーチ")] = [].
Proof.
  apply (proj1 (rule_based_translate_empty Sample.offline)). reflexivity.
Defined.

(** ** More on the dispatcher *)

Lemma translate_text_block_space (rt : runtime) (txt : str) (g : glossary)
      (b : bool) (e : env rt) :
  forallb py_isspace txt = true -> translate_text_block rt txt g b e = (txt, e).
Proof.
  intros H. unfold translate_text_block. rewrite truthy_strip, H. reflexivity.
Qed.

Lemma translate_text_block_text (rt : runtime) (txt : str) (g : glossary)
      (b : bool) (e : env rt) :
  forallb py_isspace txt = false ->
  translate_text_block rt txt g b e =
  (compose (fst (translated rt txt g e)) txt b, snd (translated rt txt g e)).
Proof.
  intros H. unfold translate_text_block. rewrite truthy_strip, H. simpl negb.
  destruct (translated rt txt g e) as [ja e']. destruct b; reflexivity.
Qed.

Lemma translated_calls (rt : runtime) (txt : str) (g : glossary) (e : env rt) :
  calls (snd (translated rt txt g e)) =
  calls e ++ match selected_backend rt with
             | Some bk => [(bk, txt)]
             | None => []
             end.
Proof.
  unfold translated, select_backend, selected_backend,
    openai_translate, deepl_translate.
  destruct (USE_OPENAI rt).
  - destruct (chat_completion rt txt (world e)) as [[c|x] w]; reflexivity.
  - destruct (USE_DEEPL rt).
    + destruct (deepl_translate_text rt txt (world e)) as [[c|x] w]; reflexivity.
    + simpl. rewrite app_nil_r. reflexivity.
Qed.

Lemma translate_text_block_sent (rt : runtime) (txt : str) (g : glossary)
      (b : bool) (e : env rt) :
  calls (snd (translate_text_block rt txt g b e)) = calls e ++ sent rt txt.
Proof.
  unfold sent. destruct (forallb py_isspace txt) eqn:H.
  - rewrite (translate_text_block_space rt txt g b e H). simpl.
    rewrite app_nil_r. reflexivity.
  - rewrite (translate_text_block_text rt txt g b e H). simpl.
    apply translated_calls.
Qed.

(** X10: [translate_text_block] makes one backend call at most: for a
    text that is not all whitespace, one call with that text to the
    backend the credentials select (OpenAI before DeepL), whether it
    succeeds or raises, and none to the other backend; no call for a
    text of whitespace or without credentials. *)
Theorem translate_text_block_calls (rt : runtime) (txt : str) (g : glossary)
        (b : bool) (e : env rt) :
  calls (snd (translate_text_block rt txt g b e)) =
  calls e ++
  (if forallb py_isspace txt then []
   else match selected_backend rt with
        | Some bk => [(bk, txt)]
        | None => []
        end).
Proof. apply translate_text_block_sent. Qed.

(** X11: without credentials [translate_text_block] does not touch the
    world: the environment is returned as it was given, and a text that
    is not all whitespace is translated by the pattern translator. *)
Theorem translate_text_block_offline (rt : runtime) (txt : str) (g : glossary)
        (b : bool) (e : env rt) :
  USE_OPENAI rt = false -> USE_DEEPL rt = false ->
  translate_text_block rt txt g b e =
  (if forallb py_isspace txt then txt
   else compose (rule_based_translate rt txt g) txt b,
   e).
Proof.
  intros H1 H2. destruct (forallb py_isspace txt) eqn:H.
  - apply translate_text_block_space, H.
  - rewrite (translate_text_block_text rt txt g b e H).
    unfold translated, select_backend. rewrite H1, H2. reflexivity.
Qed.

Lemma translate_text_block_offline_witness :
  translate_text_block Sample.offline (u "Opens files") [] false
                       (Sample.start Sample.offline 7)
  = (u "開きます ファイル", Sample.start Sample.offline 7).
Proof.
  exact (translate_text_block_offline
           Sample.offline (u "Opens files") [] false
           (Sample.start Sample.offline 7) eq_refl eq_refl).
Defined.

(** X12: when the selected backend answers, [translate_text_block]
    returns its answer (composed bilingually if asked for): the answer
    of DeepL as it is, the answer of OpenAI stripped of the whitespace at
    its ends; the pattern translator has no part in it. *)
Theorem translate_text_block_backend_answer
        (rt : runtime) (bk : backend) (txt : str) (g : glossary) (b : bool)
        (e : env rt) (content : str) (w' : World rt) :
  forallb py_isspace txt = false ->
  selected_backend rt = Some bk ->
  remote rt bk txt (world e) = (Ok content, w') ->
  translate_text_block rt txt g b e =
  (compose (match bk with
            | OpenAI => strip content
            | DeepL => content
            end) txt b,
   Env w' (calls e ++ [(bk, txt)])).
Proof.
  intros H Hsel Hok. rewrite (translate_text_block_text rt txt g b e H).
  unfold translated, select_backend, selected_backend in *.
  destruct (USE_OPENAI rt).
  - injection Hsel as <-. simpl in Hok.
    unfold openai_translate. rewrite Hok. reflexivity.
  - destruct (USE_DEEPL rt); [|discriminate].
    injection Hsel as <-. simpl in Hok.
    unfold deepl_translate. rewrite Hok. reflexivity.
Qed.

Lemma translate_text_block_backend_answer_witness :
  translate_text_block openai_echo (u "  Opens files ") [] false
                       (Sample.start openai_echo 0)
  = (u "Opens files", Env (rt := openai_echo) 1 [(OpenAI, u "  Opens files ")]).
Proof.
  exact (translate_text_block_backend_answer
           openai_echo OpenAI (u "  Opens files ") [] false
           (Sample.start openai_echo 0) (u "  Opens files ") 1
           eq_refl eq_refl eq_refl).
Defined.

(** ** More on the Markdown reassembler *)

Lemma occurs_skipn (p s : str) (n : nat) :
  occurs p s = false -> occurs p (skipn n s) = false.
Proof.
  revert s; induction n as [|n IH]; intros s H; [exact H|].
  destruct s as [|c s]; [exact H|]. simpl. apply IH.
  apply (occurs_tl p (c :: s)), H.
Qed.

Lemma split_md_blocks_no_fence (txt : str) :
  occurs fence txt = false -> split_md_blocks txt = [(text, txt)].
Proof.
  intros H. apply split_md_blocks_plain, re_search_none, occurs_skipn, H.
Qed.

Lemma space_no_fence (txt : str) :
  forallb py_isspace txt = true -> occurs fence txt = false.
Proof.
  induction txt as [|c s IH]; intros H; [reflexivity|].
  simpl in H. apply andb_true_iff in H. destruct H as [Hc Hs].
  rewrite occurs_cons, (IH Hs), orb_false_r.
  assert (E : (96 =? c)%N = false)
    by (apply N.eqb_neq; intros <-; discriminate).
  change (starts_with fence (c :: s))
    with ((96 =? c)%N && starts_with backticks2 s).
  rewrite E. reflexivity.
Qed.

(** X13: a document of whitespace (the empty document too) comes back
    from [translate_markdown_like] as it is, with the environment as it
    was given: no backend is called, nothing is appended in bilingual
    mode. *)
Theorem translate_markdown_like_whitespace
        (rt : runtime) (txt : str) (g : glossary) (b : bool) (e : env rt) :
  forallb py_isspace txt = true ->
  translate_markdown_like rt txt g b e = (txt, e).
Proof.
  intros H. unfold translate_markdown_like.
  rewrite (split_md_blocks_no_fence _ (space_no_fence _ H)). simpl.
  rewrite (translate_text_block_space rt txt g b e H). simpl.
  rewrite app_nil_r. reflexivity.
Qed.

Lemma translate_markdown_like_whitespace_witness :
  translate_markdown_like Sample.deepl_echo [10; 32; 32; 10]%N [] true
                          (Sample.start Sample.deepl_echo 0)
  = ([10; 32; 32; 10]%N, Sample.start Sample.deepl_echo 0).
Proof.
  apply translate_markdown_like_whitespace. reflexivity.
Defined.

(** X14: a document in which the fence does not occur is translated as
    one block: [translate_markdown_like] returns what
    [translate_text_block] returns for the whole document. *)
Theorem translate_markdown_like_no_fence
        (rt : runtime) (txt : str) (g : glossary) (b : bool) (e : env rt) :
  occurs fence txt = false ->
  translate_markdown_like rt txt g b e = translate_text_block rt txt g b e.
Proof.
  intros H. unfold translate_markdown_like.
  rewrite (split_md_blocks_no_fence _ H). simpl.
  destruct (translate_text_block rt txt g b e) as [piece e1]. simpl.
  rewrite app_nil_r. reflexivity.
Qed.

Lemma translate_markdown_like_no_fence_witness :
  translate_markdown_like Sample.offline (u "Opens ``files``") [] false
                          (Sample.start Sample.offline 0)
  = translate_text_block Sample.offline (u "Opens ``files``") [] false
                         (Sample.start Sample.offline 0).
Proof.
  apply translate_markdown_like_no_fence. reflexivity.
Defined.

Lemma translate_spans_calls (rt : runtime) (spans : list span) (g : glossary)
      (b : bool) (e : env rt) :
  calls (snd (translate_spans rt spans g b e)) =
  calls e ++ flat_map (sent_span rt) spans.
Proof.
  revert e; induction spans as [|[k part] spans IH]; intros e; simpl.
  - rewrite app_nil_r. reflexivity.
  - destruct k.
    + specialize (IH e). destruct (translate_spans rt spans g b e) as [out e2].
      exact IH.
    + pose proof (translate_text_block_sent rt part g b e) as S.
      destruct (translate_text_block rt part g b e) as [piece e1].
      specialize (IH e1). destruct (translate_spans rt spans g b e1) as [out e2].
      simpl in *. rewrite IH, S. unfold sent_span at 2. simpl.
      rewrite app_assoc. reflexivity.
Qed.

(** X15: the backend calls [translate_markdown_like] makes are those of
    the text spans of the document, in order: one for each text span
    that is not all whitespace (when credentials select a backend).  A
    code span is never sent: what is sent is the content of a text span,
    and holds no closed fenced block. *)
Theorem translate_markdown_like_calls
        (rt : runtime) (txt : str) (g : glossary) (b : bool) (e : env rt) :
  calls (snd (translate_markdown_like rt txt g b e)) =
    calls e ++ flat_map (sent_span rt) (split_md_blocks txt) /\
  (forall bk part,
      In (bk, part) (flat_map (sent_span rt) (split_md_blocks txt)) ->
      In (text, part) (split_md_blocks txt) /\ re_search part = None).
Proof.
  split.
  - unfold translate_markdown_like.
    pose proof (translate_spans_calls rt (split_md_blocks txt) g b e) as C.
    destruct (translate_spans rt (split_md_blocks txt) g b e) as [out e'].
    exact C.
  - intros bk part Hin. apply in_flat_map in Hin.
    destruct Hin as ([k p] & Hsp & Hs).
    unfold sent_span in Hs. simpl in Hs. destruct k; [destruct Hs|].
    unfold sent in Hs. destruct (forallb py_isspace p); [destruct Hs|].
    destruct (selected_backend rt) as [bk'|]; [|destruct Hs].
    destruct Hs as [Hs | []]. injection Hs as <- <-.
    split; [exact Hsp|].
    apply In_nth_error in Hsp. destruct Hsp as [i Hi].
    apply span_nth_kind in Hi. destruct Hi as [Hi K].
    assert (E : Nat.even i = true)
      by (destruct (Nat.even i); [reflexivity | discriminate]).
    apply (re_split_fuel_text (length txt) txt i p); auto.
Qed.

Lemma translate_markdown_like_calls_witness :
  In (text, u " z") (split_md_blocks (u "x```y``` z")) /\
  re_search (u " z") = None.
Proof.
  apply (proj2 (translate_markdown_like_calls
                  Sample.deepl_echo (u "x```y``` z") [] false
                  (Sample.start Sample.deepl_echo 0)) DeepL (u " z")).
  right. left. reflexivity.
Defined.

(** ** More on the JSON walker *)

Lemma flat_map_nil (A B : Type) (f : A -> list B) (l : list A) :
  flat_map f l = [] -> forall x, In x l -> f x = [].
Proof.
  induction l as [|a l IH]; simpl; intros H x Hin; [destruct Hin|].
  apply app_eq_nil in H. destruct H as [H1 H2].
  destruct Hin as [<- | Hin]; [exact H1 | apply (IH H2 x Hin)].
Qed.

Section WalkerCalls.

Variable rt : runtime.
Variable g : glossary.
Variable bilingual : bool.
Variable walk : json -> env rt -> json * env rt.

Lemma walk_items_cons (k : str) (v : json) (d new : list (str * json))
      (e : env rt) :
  walk_items rt walk g bilingual ((k, v) :: d) new e =
  walk_items rt walk g bilingual d
             (dict_set str_eqb new k (fst (walk_entry rt walk g bilingual k v e)))
             (snd (walk_entry rt walk g bilingual k v e)).
Proof.
  unfold walk_entry. simpl.
  destruct v as [| | | |s| |]; try (destruct (walk _ e); reflexivity).
  destruct (str_eqb k key_description).
  - destruct (translate_text_block rt s g bilingual e). reflexivity.
  - destruct (walk (JStr s) e). reflexivity.
Qed.

Lemma walk_items_unchanged (d : list (str * json)) :
  (forall k v e, In (k, v) d -> walk_entry rt walk g bilingual k v e = (v, e)) ->
  forall new e,
    nodup_keys (map fst d) = true ->
    (forall k, In k (map fst d) -> ~ In k (map fst new)) ->
    walk_items rt walk g bilingual d new e = (new ++ d, e).
Proof.
  induction d as [|[k v] d IH]; intros H new e Hnd Hfresh.
  - simpl. rewrite app_nil_r. reflexivity.
  - apply nodup_keys_cons in Hnd. destruct Hnd as [Hk Hnd].
    rewrite walk_items_cons, (H k v e (or_introl eq_refl)). simpl fst. simpl snd.
    rewrite dict_set_fresh by (apply Hfresh; left; reflexivity).
    rewrite IH.
    + rewrite <- app_assoc. reflexivity.
    + intros k0 v0 e0 Hin. apply H. right. exact Hin.
    + exact Hnd.
    + intros k0 Hin. rewrite map_app, in_app_iff. simpl.
      intros [Hn | [<- | []]].
      * apply (Hfresh k0); [right; exact Hin | exact Hn].
      * tauto.
Qed.

Lemma walk_elems_unchanged (l : list json) :
  (forall x e, In x l -> walk x e = (x, e)) ->
  forall e, walk_elems rt walk l e = (l, e).
Proof.
  induction l as [|x l IH]; intros H e; simpl; [reflexivity|].
  rewrite (H x e (or_introl eq_refl)).
  rewrite IH by (intros y e0 Hin; apply H; right; exact Hin).
  reflexivity.
Qed.

Lemma walk_items_calls (d : list (str * json)) :
  (forall k v e, In (k, v) d ->
                 calls (snd (walk_entry rt walk g bilingual k v e)) =
                 calls e ++ flat_map (sent rt) (entry_descriptions (k, v))) ->
  forall new e,
    calls (snd (walk_items rt walk g bilingual d new e)) =
    calls e ++ flat_map (sent rt) (flat_map entry_descriptions d).
Proof.
  induction d as [|[k v] d IH]; intros H new e.
  - simpl. rewrite app_nil_r. reflexivity.
  - rewrite walk_items_cons, IH.
    + rewrite (H k v e (or_introl eq_refl)).
      cbn [flat_map]. rewrite flat_map_app, app_assoc. reflexivity.
    + intros k0 v0 e0 Hin. apply H. right. exact Hin.
Qed.

Lemma walk_elems_calls (l : list json) :
  (forall x e, In x l ->
               calls (snd (walk x e)) =
               calls e ++ flat_map (sent rt) (descriptions x)) ->
  forall e,
    calls (snd (walk_elems rt walk l e)) =
    calls e ++ flat_map (sent rt) (flat_map descriptions l).
Proof.
  induction l as [|x l IH]; intros H e; simpl.
  - rewrite app_nil_r. reflexivity.
  - pose proof (H x e (or_introl eq_refl)) as Hx.
    destruct (walk x e) as [x' e1].
    assert (IH' := IH (fun y e0 Hin => H y e0 (or_intror Hin)) e1).
    destruct (walk_elems rt walk l e1) as [r e2]. simpl in *.
    rewrite IH', Hx, flat_map_app, app_assoc. reflexivity.
Qed.

End WalkerCalls.

Lemma descriptions_dict (d : list (str * json)) :
  descriptions (JDict d) = flat_map entry_descriptions d.
Proof. reflexivity. Qed.

Lemma translate_json_descriptions_dict
      (rt : runtime) (d : list (str * json)) (g : glossary) (b : bool)
      (e : env rt) :
  translate_json_descriptions rt (JDict d) g b e =
  (JDict (fst (walk_items rt
                 (fun v e => translate_json_descriptions rt v g b e)
                 g b d [] e)),
   snd (walk_items rt
          (fun v e => translate_json_descriptions rt v g b e)
          g b d [] e)).
Proof.
  simpl. destruct (walk_items rt _ g b d [] e). reflexivity.
Qed.

Lemma translate_json_descriptions_list
      (rt : runtime) (l : list json) (g : glossary) (b : bool) (e : env rt) :
  translate_json_descriptions rt (JList l) g b e =
  (JList (fst (walk_elems rt
                 (fun v e => translate_json_descriptions rt v g b e) l e)),
   snd (walk_elems rt
          (fun v e => translate_json_descriptions rt v g b e) l e)).
Proof.
  simpl. destruct (walk_elems rt _ l e). reflexivity.
Qed.

(** X16: a tree that holds no string under a key ["description"] comes
    back from [translate_json_descriptions] as it is, with the
    environment as it was given. *)
Theorem translate_json_descriptions_unchanged
        (rt : runtime) (g : glossary) (b : bool) (obj : json) :
  unique_keys obj = true ->
  descriptions obj = [] ->
  forall e, translate_json_descriptions rt obj g b e = (obj, e).
Proof.
  induction obj as [| | | | |l IH|d IH] using json_induction;
    intros U D e; try reflexivity.
  - rewrite translate_json_descriptions_list.
    rewrite walk_elems_unchanged; [reflexivity|].
    intros x e0 Hin. rewrite Forall_forall in IH. apply (IH x Hin).
    + simpl in U. rewrite forallb_forall in U. apply U, Hin.
    + apply (flat_map_nil _ _ _ _ D x Hin).
  - rewrite translate_json_descriptions_dict.
    simpl in U. apply andb_true_iff in U. destruct U as [Hnd U].
    rewrite walk_items_unchanged; [reflexivity| |exact Hnd|intros k _ []].
    intros k v e0 Hin.
    rewrite descriptions_dict in D.
    pose proof (flat_map_nil _ _ _ _ D (k, v) Hin) as Dkv. simpl in Dkv.
    rewrite forallb_forall in U. specialize (U (k, v) Hin). simpl in U.
    rewrite Forall_forall in IH. specialize (IH (k, v) Hin). simpl in IH.
    unfold walk_entry.
    destruct v as [| | | |s| |]; try (apply IH; assumption); try reflexivity.
    destruct (str_eqb k key_description); [discriminate | reflexivity].
Qed.

Lemma translate_json_descriptions_unchanged_witness :
  translate_json_descriptions
    Sample.deepl_echo
    (JDict [(u "title", JStr (u "Creates files"));
            (u "description", JInt 3);
            (u "tags", JList [JStr (u "description"); JNull])])
    [] true (Sample.start Sample.deepl_echo 0)
  = (JDict [(u "title", JStr (u "Creates files"));
            (u "description", JInt 3);
            (u "tags", JList [JStr (u "description"); JNull])],
     Sample.start Sample.deepl_echo 0).
Proof.
  apply translate_json_descriptions_unchanged; reflexivity.
Defined.

(** X17: the backend calls [translate_json_descriptions] makes are those
    of the strings under a key ["description"], in the order of the
    document: one for each that is not all whitespace (when credentials
    select a backend); no other string of the tree is sent. *)
Theorem translate_json_descriptions_calls
        (rt : runtime) (g : glossary) (b : bool) (obj : json) (e : env rt) :
  calls (snd (translate_json_descriptions rt obj g b e)) =
  calls e ++ flat_map (sent rt) (descriptions obj).
Proof.
  revert e. induction obj as [| | | | |l IH|d IH] using json_induction;
    intros e; try (simpl; rewrite app_nil_r; reflexivity).
  - rewrite translate_json_descriptions_list. simpl snd.
    apply walk_elems_calls.
    intros x e0 Hin. rewrite Forall_forall in IH. apply (IH x Hin).
  - rewrite translate_json_descriptions_dict. simpl snd.
    rewrite descriptions_dict. apply walk_items_calls.
    intros k v e0 Hin.
    rewrite Forall_forall in IH. specialize (IH (k, v) Hin). simpl in IH.
    unfold walk_entry, entry_descriptions.
    destruct v as [| | | |s| |]; try apply IH.
    destruct (str_eqb k key_description).
    + pose proof (translate_text_block_sent rt s g b e0) as S.
      destruct (translate_text_block rt s g b e0) as [t e1].
      simpl in *. rewrite S, app_nil_r. reflexivity.
    + simpl. rewrite app_nil_r. reflexivity.
Qed.

(** ** The order of a glossary *)

Lemma glossary_rows_keys (rs : list Csv.row) (d d' : glossary) :
  glossary_rows d rs = Ok d' ->
  map fst d' = fold_left add_key (map fst (row_entries rs)) (map fst d).
Proof.
  revert d; induction rs as [|r rs IH]; intros d H; simpl in H.
  - injection H as <-. reflexivity.
  - destruct (glossary_row d r) as [d1|x] eqn:R; [|discriminate].
    apply glossary_row_ok in R. rewrite (IH d1 H). subst d1.
    unfold row_entries. simpl flat_map.
    destruct (row_entry r) as [[en ja]|]; [|reflexivity].
    rewrite map_app. simpl map at 2. simpl app.
    simpl fold_left. unfold add_key at 2. rewrite dict_set_keys. reflexivity.
Qed.

(** X18: the glossary [load_glossary] returns keeps its source terms in
    the order in which the file first gives them: a later row for a term
    changes its target and not its place (the order in which
    [rule_based_translate] applies the entries). *)
Theorem load_glossary_order (f : Csv.records) (g : glossary) :
  load_glossary (Some f) = Ok g ->
  map fst g = first_seen (map fst (row_entries (Csv.DictReader f))).
Proof.
  simpl. intros H. apply (glossary_rows_keys _ _ _ H).
Qed.

Lemma load_glossary_order_witness :
  map fst [(u "Search", u "Z"); (u "Open", u "開く")] =
  first_seen
    (map fst
       (row_entries
          (Csv.DictReader [[u "en"; u "ja"];
                           [u " Search "; u "X"];
                           [u "Open"; u " 開く"];
                           [u "Search"; u "Z"]]))).
Proof.
  exact (load_glossary_order
           [[u "en"; u "ja"];
            [u " Search "; u "X"];
            [u "Open"; u " 開く"];
            [u "Search"; u "Z"]]
           [(u "Search", u "Z"); (u "Open", u "開く")] eq_refl).
Defined.

Lemma entries_truthy (g : glossary) :
  forallb entry_ok g = true -> forallb (fun p => truthy (fst p)) g = true.
Proof.
  rewrite !forallb_forall. intros H p Hin. specialize (H p Hin).
  unfold entry_ok in H. rewrite !andb_true_iff in H. tauto.
Qed.

(** X19: with a glossary that [load_glossary] returned,
    [rule_based_translate] turns the empty text into the empty text (the
    loader stores no empty source term, which would put its target
    there). *)
Theorem load_glossary_then_translate_empty
        (rt : runtime) (p : option Csv.records) (g : glossary) :
  load_glossary p = Ok g -> rule_based_translate rt [] g = [].
Proof.
  intros H.
  assert (T : forallb (fun q => truthy (fst q)) g = true).
  { apply entries_truthy. destruct p as [f|]; simpl in H.
    - apply (glossary_rows_invariant _ _ _ H); reflexivity.
    - injection H as <-. reflexivity. }
  unfold rule_based_translate.
  rewrite pattern_rules_nil, (glossary_subst_nil g T). reflexivity.
Qed.

Lemma load_glossary_then_translate_empty_witness :
  rule_based_translate Sample.offline [] [(u "Search", u "検索")] = [].
Proof.
  exact (load_glossary_then_translate_empty
           Sample.offline
           (Some [[u "en"; u "ja"]; [u "Search"; u "検索"]; [u ""; u "Y"]])
           [(u "Search", u "検索")] eq_refl).
Defined.
